(* ===== verification/_CoqProject ===== *)
-Q . S2P
Prelude.v
Heap.v
Restaurant.v
Threads.v
Correctness.v
ShmProcesses.v
