(* ===== verification/Prelude.v ===== *)
(** * A verification development of Ben's Chilli Bowl (Project 2, Thread Synchronization)

    The repository holds two C programs.

    - [src/BENSCHILLIBOWL.c] with its driver [src/main.c]: a bounded FIFO
      queue of [Order]s guarded by one pthread mutex and two condition
      variables ([can_add_orders], [can_get_orders]).  Customer threads
      ([BENSCHILLIBOWLCustomer]) allocate orders and enqueue them with
      [AddOrder]; cook threads ([BENSCHILLIBOWLCook]) dequeue with [GetOrder]
      until it returns [NULL]; [main] opens the restaurant, starts 90
      customers and 10 cooks, joins them all and calls [CloseRestaurant],
      which asserts that every expected order was handled.  The queue is a
      singly linked list of heap-allocated [Order] cells threaded through
      their [next] fields ([AddOrderToBack] walks to the tail).
    - [src/shm_processes.c]: two forked processes ("Dear Old Dad" and "Poor
      Student") that share one [int] bank account in System V shared memory,
      guarded by a binary semaphore.

    ** Files, in dependency order

    - [Prelude] (this file): the scope [bcb_scope], the C [int] range, the
      hint database [bcb], the tactics and the generic lemmas on options,
      lists and [Z] that the components share.
    - [Heap]: the C heap as a [gmap loc Order]; the [Order] struct; the
      field writes through a pointer, which fail on a dangling pointer;
      [malloc]/[free]; the linked-list predicate [list_rep]; [AddOrderToBack]
      (its [while (curr->next != NULL)] loop as [tail_of] with fuel) and the
      freeing loop of [CloseRestaurant] ([free_orders]).  Theorems: the list
      has no repeated cell, so its length is bounded by the heap size, which
      is why [size h] is enough fuel; [AddOrderToBack] appends exactly one
      cell and leaves every other payload alone (a refinement of [++ [x]]).
    - [Restaurant]: the [BENSCHILLIBOWL] record, [OpenRestaurant],
      [IsEmpty]/[IsFull], the critical sections of [AddOrder] and [GetOrder]
      (everything they do while holding the mutex), and [CloseRestaurant]'s
      assertions; the representation invariant (linked list of [current_size]
      cells, strictly increasing order numbers, conservation
      [next_order_number - 1 = current_size + orders_handled]); an abstract
      bounded FIFO ([Spec]) and the refinement theorem that the monitor
      operations implement it.
    - [Threads]: the whole concurrent program as a step function over
      a thread pool ([step]): every thread's program counter ([pc], one
      constructor per control point of [BENSCHILLIBOWLCustomer],
      [BENSCHILLIBOWLCook] and [main]), the mutex owner, the two condition
      variables' wait sets (a [pthread_cond_signal] wakes one waiter the
      environment chooses, [pthread_cond_broadcast] wakes all of them, and
      spurious wake-ups are steps of their own), [malloc] choosing any free
      address or failing, [rand()] any value in [0, RAND_MAX], and [main]'s
      joins and final [CloseRestaurant].  Each critical section of
      [AddOrder]/[GetOrder] is one step (the mutex is held throughout, so
      no interleaving is lost).  The global invariant [Inv] (well-formed
      queue, private owned cells, lock ownership, roles, conservation
      [orders_handled + current_size + orders not yet placed =
      EXPECTED_NUM_ORDERS], drained queue once a cook returned) and its
      preservation by every step ([step_Inv]), case by case.
    - [Correctness]: the theorems over every state reachable from [main]'s
      initial state under any interleaving, for every choice of the
      [#define]s with at least one cook and a non-negative capacity:
      the invariant, mutual exclusion, FIFO service, gap-free numbering,
      the capacity bound, the [int] bounds, the end state when [main]
      returns, the only reachable memory fault, and the hang after a failed
      [malloc]; for a capacity of 0 or less (which [OpenRestaurant] does
      not reject), that no order is ever queued and [main] never returns;
      then concrete schedules replayed with [vm_compute]: the
      use-after-free of [main.c], line 44, with [main.c]'s own constants,
      and a deadlock after a failed [malloc].
    - [ShmProcesses]: [shm_processes.c], independent of the rest: the
      parent ([ParentProcess], Dad) and the child ([ChildProcess], the
      student) as a step relation over the shared account, the
      semaphore's value ([sem_wait_op] blocks at 0) and each process's
      program counter and [localBalance].  Theorems: the semaphore is a
      mutex, the account stays in [0, 199], neither process blocks the
      other for good, and Dad's stale [localBalance] stops his deposits for
      good once it reaches 100.

    ** Fuel and bounds

    The constants of [main.c] ([Threads.Params]) are arbitrary: the
    theorems hold for every choice with a non-negative capacity and at
    least one cook, over unbounded integers.  For constants whose
    arithmetic would overflow a C [int] they describe the mathematical
    program rather than the C one; the theorem on the [int] fields
    ([Correctness.int_fields]) gives the condition under which the two
    coincide, and [main.c]'s constants satisfy it.

    The loops over the list ([tail_of], [free_orders]) take fuel; they are
    run with [size h] (the number of allocated cells), which is enough
    because a well-formed list has no repeated cell ([list_rep_NoDup]), so
    its length is at most [size h]; the theorems state that this fuel gives
    the result.  [int] fields are [Z]; [Int z] states that [z] fits in 32
    bits, and the theorem on the [int] fields gives the condition on the
    constants under which no overflow happens.

    ** Plan and order of work

    1. Done: [Heap], [Restaurant] (sequential meaning, representation
       invariant, refinement of the abstract bounded FIFO), [Threads] and
       [Correctness] (safety and functional correctness over every
       interleaving, and the two defects of [main.c]), and [ShmProcesses].
    2. Next: progress under the fair scheduler [fstep] (no spurious
       wake-ups): no deadlock and termination of every run when [malloc]
       never fails, with the spec's "no lost wake-up" for blocked cooks;
       absence of leaks (every allocated cell is queued or owned).
    3. Then: fairness of the semaphore in [ShmProcesses] (a waiting
       process is admitted under a fair schedule), and an interface
       ([Module Type]) for the monitor so that the thread model can be
       instantiated with the abstract queue as well.

    ** What is not modelled

    [printf], [perror], [srand]/[time] and [sleep] are output or timing
    only (the reads [printf] makes of an [Order] are modelled: they are
    where the use-after-free happens); [rand()] is an input chosen by the
    environment; [pthread_create] is modelled by starting every thread in
    the initial state (creation has no effect on shared state, so this adds
    no behaviour a real run cannot have); the mutex and condition
    variables are modelled by their POSIX semantics, not their code; the
    final [free(bcb)] and the destruction of the primitives in
    [CloseRestaurant] have no later use; the [malloc] of the struct in
    [OpenRestaurant] and its [exit(1)] on failure happen before any thread
    exists.  The customer's [printf] after [AddOrder] faults in the model
    when its cell is no longer allocated; a cell freed and allocated again
    at the same address reads without fault, so that one fault site is
    under-reported (no theorem depends on it).  In [shm_processes.c], the exits
    on a failed [shmget], [shmat], [semget], [semctl] or [fork] end the
    program before any shared state exists, and are not modelled. *)

From stdpp Require Export base gmap list strings relations.
From Stdlib Require Export ZArith Lia.

Declare Scope bcb_scope.
Delimit Scope bcb_scope with bcb.

(** Addresses of heap cells.  The C [NULL] pointer is [None] in an
    [option loc]. *)
Abbreviation loc := nat.

(** ** The C [int] type (32 bits, two's complement) *)

Definition INT_MIN : Z := - 2 ^ 31.
Definition INT_MAX : Z := 2 ^ 31 - 1.

(** [int_ok z] holds when [z] is representable as an [int]; signed overflow
    being undefined in C, every [int] computation is checked against it. *)
Definition int_ok (z : Z) : bool := (INT_MIN <=? z)%Z && (z <=? INT_MAX)%Z.

(** [rand()] returns a value in [0, RAND_MAX]; glibc's [RAND_MAX] is
    [INT_MAX]. *)
Definition RAND_MAX : Z := INT_MAX.

(** A value [rand()] can return. *)
Definition rand_ok (r : Z) : bool := (0 <=? r)%Z && (r <=? RAND_MAX)%Z.

Notation "'Int' z" := (int_ok z = true) (at level 10) : bcb_scope.
Open Scope bcb_scope.

Create HintDb bcb discriminated.

(** ** Generic lemmas *)

Lemma int_ok_iff (z : Z) : Int z ↔ (INT_MIN ≤ z ≤ INT_MAX)%Z.
Proof.
  unfold int_ok. rewrite andb_true_iff, !Z.leb_le. done.
Qed.

Lemma int_ok_intro (z : Z) : (INT_MIN ≤ z ≤ INT_MAX)%Z → Int z.
Proof. apply int_ok_iff. Qed.

Lemma bind_Some_inv {A B} (m : option A) (f : A → option B) (b : B) :
  (m ≫= f) = Some b → ∃ a, m = Some a ∧ f a = Some b.
Proof. destruct m; simpl; [eauto | discriminate]. Qed.

Lemma NoDup_app_single {A} (l : list A) (x : A) :
  NoDup l → x ∉ l → NoDup (l ++ [x]).
Proof.
  intros Hl Hx. apply NoDup_app. split; [done |]. split.
  - intros y Hy Hy'. apply list_elem_of_singleton in Hy'. congruence.
  - apply NoDup_singleton.
Qed.

Lemma last_app_single {A} (l : list A) (x : A) : last (l ++ [x]) = Some x.
Proof. apply last_snoc. Qed.

Lemma sum_list_map_ext {A} (g1 g2 : A → nat) (L : list A) :
  (∀ x, x ∈ L → g1 x = g2 x) → sum_list (map g1 L) = sum_list (map g2 L).
Proof.
  induction L as [|x L IH]; intros Hg; simpl; [done |].
  rewrite Hg, IH by set_solver. done.
Qed.

(** Changing the summand at one element [c] of a duplicate-free list. *)
Lemma sum_list_map_upd {A} `{EqDecision A} (g : A → nat) (L : list A) c v :
  NoDup L → c ∈ L →
  sum_list (map (λ x, if decide (x = c) then v else g x) L) + g c = sum_list (map g L) + v.
Proof.
  induction L as [|x L IH]; [set_solver |]. intros [Hx HL]%NoDup_cons Hc. simpl.
  case_decide as Hxc.
  - subst x.
    rewrite (sum_list_map_ext (λ x, if decide (x = c) then v else g x) g L)
      by (intros y Hy; case_decide; set_solver).
    lia.
  - assert (Hc' : c ∈ L) by set_solver. specialize (IH HL Hc'). lia.
Qed.

Lemma sum_list_map_const {A} (n : nat) (L : list A) :
  sum_list (map (λ _, n) L) = length L * n.
Proof. induction L; simpl; lia. Qed.

#[export] Hint Resolve NoDup_app_single int_ok_intro : bcb.

(** ** Tactics *)

(** Split every [m ≫= f = Some b] hypothesis into its two halves. *)
Ltac inv_bind :=
  repeat match goal with
    | H : (_ ≫= _) = Some _ |- _ =>
        let a := fresh "a" in
        let Ha := fresh "Ha" in
        apply bind_Some_inv in H as (a & Ha & H)
    end.

(** Prove a decidable proposition about concrete data by evaluation. *)
Ltac decide_true := apply (bool_decide_unpack _); vm_compute; reflexivity.

(** Case analysis on the boolean tests of the code ([=?], [<?], [<=?]) into
    the propositions they decide. *)
Ltac case_tests :=
  repeat match goal with
    | |- context [ (?a =? ?b)%Z ] => destruct (Z.eqb_spec a b)
    | |- context [ (?a <? ?b)%Z ] => destruct (Z.ltb_spec a b)
    | |- context [ (?a <=? ?b)%Z ] => destruct (Z.leb_spec a b)
    | H : context [ (?a =? ?b)%Z ] |- _ => destruct (Z.eqb_spec a b)
    | H : context [ (?a <? ?b)%Z ] |- _ => destruct (Z.ltb_spec a b)
    | H : context [ (?a <=? ?b)%Z ] |- _ => destruct (Z.leb_spec a b)
    end.
