(* ===== verification/Heap.v ===== *)
(** * The heap of [Order] cells and the linked list through their [next] fields

    [Order] is the C struct of [BENSCHILLIBOWL.h]; the heap maps the address
    of every allocated cell to its contents.  A field write through a
    dangling pointer, or a [free] of one, yields [None]: the C code would
    have undefined behaviour there.  [AddOrderToBack] and the freeing loop
    of [CloseRestaurant] are translated line by line; their [while] loops
    take fuel, and the theorems show that [size h] fuel is always enough on
    a well-formed list. *)

From S2P Require Import Prelude.

Module Heap.

(** ** Data *)

(** [typedef struct OrderStruct { MenuItem menu_item; int customer_id;
    int order_number; struct OrderStruct *next; } Order;] *)
Record Order := mkOrder {
  menu_item : string;
  customer_id : Z;
  order_number : Z;
  next : option loc;
}.

Abbreviation heap := (gmap loc Order).

(** What a consumer sees of an order: everything but the link. *)
Record Ticket := mkTicket {
  t_item : string;
  t_customer : Z;
  t_number : Z;
}.

Definition payload (o : Order) : Ticket :=
  mkTicket (menu_item o) (customer_id o) (order_number o).

(** Field updates of one struct. *)
Definition with_next (n : option loc) (o : Order) : Order :=
  mkOrder (menu_item o) (customer_id o) (order_number o) n.
Definition with_number (k : Z) (o : Order) : Order :=
  mkOrder (menu_item o) (customer_id o) k (next o).
Definition with_item (m : string) (o : Order) : Order :=
  mkOrder m (customer_id o) (order_number o) (next o).
Definition with_customer (c : Z) (o : Order) : Order :=
  mkOrder (menu_item o) c (order_number o) (next o).

(** ** Memory operations *)

(** [p->f = v]: the write [f] on the cell at [l]; [None] when [l] is not
    allocated. *)
Definition store (h : heap) (l : loc) (f : Order → Order) : option heap :=
  o ← h !! l; Some (<[l := f o]> h).

(** [malloc(sizeof(Order))] returning the free address [l]: the cell's
    contents are unspecified until written. *)
Definition uninit : Order := mkOrder EmptyString 0 0 None.

Definition malloc (h : heap) (l : loc) : option heap :=
  match h !! l with
  | Some _ => None
  | None => Some (<[l := uninit]> h)
  end.

(** [free(p)]; freeing an address that is not allocated is [None]. *)
Definition free (h : heap) (l : loc) : option heap :=
  _ ← h !! l; Some (delete l h).

(** ** The linked list *)

(** [list_rep h p ls]: following [next] from [p] visits exactly the cells
    [ls] and then reaches [NULL]. *)
Fixpoint list_rep (h : heap) (p : option loc) (ls : list loc) : Prop :=
  match ls with
  | [] => p = None
  | l :: ls' => p = Some l ∧ ∃ o, h !! l = Some o ∧ list_rep h (next o) ls'
  end.

#[export] Instance list_rep_dec h p ls : Decision (list_rep h p ls).
Proof.
  revert p. induction ls as [|l ls IH]; intros p; simpl; [apply _ |].
  destruct (decide (p = Some l)) as [Hp|Hp]; [| right; intros [? _]; done].
  destruct (h !! l) as [o|] eqn:Ho.
  - destruct (IH (next o)) as [Hr|Hr].
    + left. eauto.
    + right. intros [_ (o' & Ho' & Hr')]. injection Ho' as <-. done.
  - right. intros [_ (o' & Ho' & _)]. congruence.
Defined.

(** The payloads of the cells [ls], front to back. *)
Definition tickets (h : heap) (ls : list loc) : list Ticket :=
  omap (λ l, payload <$> h !! l) ls.

(** [while (curr->next != NULL) curr = curr->next;] from [curr]: the last
    cell of the list, or [None] on a dangling pointer or when the fuel runs
    out. *)
Fixpoint tail_of (fuel : nat) (h : heap) (curr : loc) : option loc :=
  match fuel with
  | O => None
  | S fuel' =>
      o ← h !! curr;
      match next o with
      | None => Some curr
      | Some n => tail_of fuel' h n
      end
  end.

(** [void AddOrderToBack(Order **orders, Order *order)]: the new value of
    [*orders] and the new heap.  The walk gets one step of fuel per
    allocated cell. *)
Definition AddOrderToBack (h : heap) (orders : option loc) (order : loc)
    : option (option loc * heap) :=
  h1 ← store h order (with_next None);
  match orders with
  | None => Some (Some order, h1)
  | Some hd =>
      curr ← tail_of (size h1) h1 hd;
      h2 ← store h1 curr (with_next (Some order));
      Some (orders, h2)
  end.

(** The loop of [CloseRestaurant] that frees the leftover orders:
    [tmp = curr; curr = curr->next; free(tmp);]. *)
Fixpoint free_orders (fuel : nat) (h : heap) (curr : option loc) : option heap :=
  match curr with
  | None => Some h
  | Some l =>
      match fuel with
      | O => None
      | S fuel' =>
          o ← h !! l;
          h' ← free h l;
          free_orders fuel' h' (next o)
      end
  end.

(** ** Shape of the list *)

Section list_rep_lemmas.
Implicit Types (h : heap) (p : option loc) (ls : list loc).

Lemma list_rep_head h p ls : list_rep h p ls → p = head ls.
Proof. destruct ls; simpl; [done | intros [-> _]; done]. Qed.

Lemma list_rep_det h p ls1 ls2 : list_rep h p ls1 → list_rep h p ls2 → ls1 = ls2.
Proof.
  revert p ls2. induction ls1 as [|l ls1 IH]; intros p [|l' ls2]; simpl.
  - done.
  - intros -> [? _]. discriminate.
  - intros [-> _] ?. discriminate.
  - intros [-> (o & Ho & H1)] [[= <-] (o' & Ho' & H2)].
    rewrite Ho in Ho'. injection Ho' as <-. f_equal. eauto.
Qed.

Lemma list_rep_suffix h p ls1 l ls2 :
  list_rep h p (ls1 ++ l :: ls2) → list_rep h (Some l) (l :: ls2).
Proof.
  revert p. induction ls1 as [|l1 ls1 IH]; simpl; [intros p [_ H]; split; [done | exact H] |].
  intros p [_ (o & _ & H)]. exact (IH _ H).
Qed.

(** A list through a functional heap never visits a cell twice: a second
    visit would start the same walk again, forever. *)
Lemma list_rep_NoDup h p ls : list_rep h p ls → NoDup ls.
Proof.
  revert p. induction ls as [|l ls IH]; intros p; simpl; [constructor |].
  intros [-> (o & Ho & H)]. constructor; [| eauto].
  intros Hin. apply list_elem_of_split in Hin as (pre & post & ->).
  pose proof (list_rep_suffix _ _ _ _ _ H) as Hs.
  assert (Hl : list_rep h (Some l) (l :: pre ++ l :: post)) by (simpl; eauto).
  pose proof (list_rep_det _ _ _ _ Hs Hl) as Heq. injection Heq as Heq.
  apply (f_equal length) in Heq. rewrite length_app in Heq. simpl in Heq. lia.
Qed.

Lemma list_rep_lookup h p ls l : list_rep h p ls → l ∈ ls → is_Some (h !! l).
Proof.
  revert p. induction ls as [|l' ls IH]; intros p; simpl; [set_solver |].
  intros [-> (o & Ho & H)] [-> | Hin]%elem_of_cons; eauto.
Qed.

Lemma list_rep_length h p ls : list_rep h p ls → length ls ≤ size h.
Proof.
  intros H. rewrite <- (size_list_to_set (C := gset loc) ls) by eauto using list_rep_NoDup.
  rewrite <- size_dom. apply subseteq_size. intros l Hl.
  apply elem_of_list_to_set in Hl. apply elem_of_dom. eauto using list_rep_lookup.
Qed.

(** The list only depends on its own cells. *)
Lemma list_rep_ext h h' p ls :
  (∀ l, l ∈ ls → h' !! l = h !! l) → list_rep h p ls → list_rep h' p ls.
Proof.
  revert p. induction ls as [|l ls IH]; intros p Hext; simpl; [done |].
  intros [-> (o & Ho & H)]. split; [done |]. exists o.
  rewrite Hext by set_solver. split; [done |]. apply IH; [| done]. intros; apply Hext; set_solver.
Qed.

(** Writing a cell outside the list does not change the list. *)
Lemma list_rep_insert_notin h p ls l o :
  l ∉ ls → list_rep (<[l := o]> h) p ls ↔ list_rep h p ls.
Proof.
  revert p. induction ls as [|l' ls IH]; intros p Hl; simpl; [done |].
  apply not_elem_of_cons in Hl as [Hne Hl].
  rewrite lookup_insert_ne by congruence. setoid_rewrite IH; done.
Qed.

Lemma list_rep_delete_notin h p ls l :
  l ∉ ls → list_rep (delete l h) p ls ↔ list_rep h p ls.
Proof.
  revert p. induction ls as [|l' ls IH]; intros p Hl; simpl; [done |].
  apply not_elem_of_cons in Hl as [Hne Hl].
  rewrite lookup_delete_ne by congruence. setoid_rewrite IH; done.
Qed.

Lemma list_rep_last h p ls t :
  list_rep h p ls → last ls = Some t → ∃ o, h !! t = Some o ∧ next o = None.
Proof.
  revert p. induction ls as [|l [|l2 ls] IH]; intros p; simpl; [done | |].
  - intros [-> (o & Ho & Hn)] [= ->]. eauto.
  - intros [-> (o & Ho & H)] Ht. eauto.
Qed.

(** Linking a fresh last cell [x] behind the tail [t]. *)
Lemma list_rep_snoc h p ls t o x ox :
  list_rep h p ls → last ls = Some t → h !! t = Some o →
  x ∉ ls → h !! x = Some ox → next ox = None →
  list_rep (<[t := with_next (Some x) o]> h) (head (ls ++ [x])) (ls ++ [x]).
Proof.
  revert p. induction ls as [|l ls IH]; intros p; simpl; [done |].
  intros [-> (o' & Ho' & H)] Hlast Ht Hx Hox Hnext.
  apply not_elem_of_cons in Hx as [Hxl Hx]. split; [done |].
  destruct ls as [|l2 ls].
  - injection Hlast as <-. rewrite Ht in Ho'. injection Ho' as <-.
    rewrite lookup_insert_eq. eexists; split; [done |]. simpl. split; [done |].
    rewrite lookup_insert_ne by congruence. eauto.
  - assert (Htl : t ≠ l).
    { intros ->. assert (Hnd : NoDup (l :: l2 :: ls)).
      { eapply (list_rep_NoDup h (Some l)). simpl; eauto. }
      apply NoDup_cons in Hnd as [Hnd _]. apply Hnd. apply last_Some_elem_of. done. }
    rewrite lookup_insert_ne by congruence. exists o'. split; [done |].
    pose proof (list_rep_head _ _ _ H) as Hh. rewrite Hh.
    eapply IH; eauto.
Qed.

End list_rep_lemmas.

(** ** The operations on the list *)

Lemma store_lookup h l f o : h !! l = Some o → store h l f = Some (<[l := f o]> h).
Proof. unfold store. intros ->. done. Qed.

(** Relinking a cell changes no payload. *)
Lemma payload_with_next (h : heap) (l : loc) (o : Order) (n : option loc) :
  h !! l = Some o → payload <$> <[l := with_next n o]> h = payload <$> h.
Proof.
  intros Ho. rewrite fmap_insert. apply insert_id. rewrite lookup_fmap, Ho. done.
Qed.

Lemma tickets_ext (h h' : heap) ls :
  (∀ l, l ∈ ls → payload <$> h !! l = payload <$> h' !! l) → tickets h ls = tickets h' ls.
Proof.
  intros Heq. unfold tickets. apply list_omap_ext, Forall2_same_length_lookup.
  split; [done |]. intros i l l' Hl Hl'. rewrite Hl in Hl'. injection Hl' as <-.
  apply Heq. eapply list_elem_of_lookup_2; eauto.
Qed.

Lemma tickets_fmap_eq (h h' : heap) ls :
  payload <$> h = payload <$> h' → tickets h ls = tickets h' ls.
Proof. intros Heq. apply tickets_ext. intros l _. rewrite <- !lookup_fmap, Heq. done. Qed.

Lemma tickets_app h ls1 ls2 : tickets h (ls1 ++ ls2) = tickets h ls1 ++ tickets h ls2.
Proof. apply omap_app. Qed.

Lemma tickets_cons_lookup h l ls o :
  h !! l = Some o → tickets h (l :: ls) = payload o :: tickets h ls.
Proof. intros Ho. unfold tickets. simpl. rewrite Ho. done. Qed.

Lemma tickets_insert_notin (h : heap) ls l o :
  l ∉ ls → tickets (<[l := o]> h) ls = tickets h ls.
Proof.
  intros Hl. apply tickets_ext. intros l' Hl'.
  rewrite lookup_insert_ne by (intros ->; done). done.
Qed.

Lemma tickets_length (h : heap) p ls :
  list_rep h p ls → length (tickets h ls) = length ls.
Proof.
  revert p. induction ls as [|l ls IH]; intros p; [done |].
  intros [-> (o & Ho & H)]. rewrite (tickets_cons_lookup _ _ _ _ Ho). simpl. eauto.
Qed.

(** The payloads after appending [x], when only [x]'s payload changed. *)
Lemma tickets_snoc_update (h h' : heap) ls x o :
  x ∉ ls → payload <$> h' = payload <$> <[x := o]> h →
  tickets h' (ls ++ [x]) = tickets h ls ++ [payload o].
Proof.
  intros Hx Hpay. rewrite (tickets_fmap_eq _ _ _ Hpay), tickets_app.
  rewrite tickets_insert_notin by done.
  rewrite (tickets_cons_lookup _ _ _ o) by apply lookup_insert_eq. done.
Qed.

#[export] Hint Resolve list_rep_NoDup list_rep_length list_rep_lookup : bcb.

(** On a well-formed list, the [while] loop
    of [AddOrderToBack] stops at the last cell once it has as much fuel as
    the list is long. *)
Lemma tail_of_spec fuel h hd ls :
  list_rep h (Some hd) ls → length ls ≤ fuel → tail_of fuel h hd = last ls.
Proof.
  revert hd fuel. induction ls as [|l ls IH]; intros hd fuel; simpl; [done |].
  intros [[= <-] (o & Ho & H)] Hf. destruct fuel as [|fuel]; [lia |]. simpl.
  rewrite Ho. simpl. destruct (next o) as [n|] eqn:Hn.
  - destruct ls as [|l2 ls]; [simpl in H; done |].
    rewrite IH; [done | exact H | simpl in *; lia].
  - destruct ls as [|l2 ls]; [done |]. simpl in H. destruct H; discriminate.
Qed.

(** [AddOrderToBack] applied to a well-formed list and an allocated cell
    [x] outside it returns the new head and a heap in which the list is
    [ls ++ [x]]; no payload changes, and no cell outside [ls ++ [x]] is
    touched.  It never fails and its walk never runs out of fuel. *)
Theorem AddOrderToBack_spec h p ls x :
  list_rep h p ls → is_Some (h !! x) → x ∉ ls →
  ∃ h', AddOrderToBack h p x = Some (head (ls ++ [x]), h')
      ∧ list_rep h' (head (ls ++ [x])) (ls ++ [x])
      ∧ payload <$> h' = payload <$> h
      ∧ (∀ l, l ∉ ls ++ [x] → h' !! l = h !! l).
Proof.
  intros Hrep [ox Hox] Hx. unfold AddOrderToBack.
  rewrite (store_lookup _ _ _ _ Hox). simpl.
  set (h1 := <[x := with_next None ox]> h).
  assert (Hrep1 : list_rep h1 p ls) by (apply list_rep_insert_notin; done).
  destruct p as [hd|].
  - destruct ls as [|l0 ls0] eqn:Els; [simpl in Hrep; discriminate |].
    rewrite <- Els in *.
    assert (Hne : ls ≠ []) by (subst; done).
    destruct (last ls) as [t|] eqn:Ht; [| apply last_None in Ht; done].
    rewrite (tail_of_spec _ _ _ ls Hrep1); [| pose proof (list_rep_length _ _ _ Hrep1); lia].
    rewrite Ht. simpl.
    destruct (list_rep_last _ _ _ _ Hrep1 Ht) as (ot & Hot & Hnt).
    rewrite (store_lookup _ _ _ _ Hot). simpl.
    assert (Htx : t ≠ x) by (intros ->; apply Hx, last_Some_elem_of; done).
    assert (Hhd : head (ls ++ [x]) = Some hd).
    { rewrite (list_rep_head _ _ _ Hrep). subst ls. done. }
    rewrite Hhd. eexists; split; [done |]. split; [| split].
    + rewrite <- Hhd.
      apply (list_rep_snoc h1 (Some hd) ls t ot x (with_next None ox)); try done.
      subst h1. apply lookup_insert_eq.
    + rewrite (payload_with_next _ _ _ _ Hot). subst h1.
      apply (payload_with_next _ _ _ _ Hox).
    + intros l Hl. assert (l ≠ t) by (intros ->; apply Hl, elem_of_app; left; apply last_Some_elem_of; done).
      assert (l ≠ x) by set_solver.
      subst h1. rewrite !lookup_insert_ne by done. done.
  - apply (list_rep_head _ _ _) in Hrep. destruct ls; [| discriminate].
    eexists; split; [done |]. split; [| split].
    + simpl. split; [done |]. eexists; split; [subst h1; apply lookup_insert_eq | done].
    + apply (payload_with_next _ _ _ _ Hox).
    + intros l Hl. subst h1. rewrite lookup_insert_ne by set_solver. done.
Qed.

(** C14: Refinement of [++ [x]]: on a well-formed list and an allocated cell
    [x] outside it, [AddOrderToBack] returns; the list becomes
    [ls ++ [x]], its payloads are the old ones followed by [x]'s, and no
    other cell changes. *)
Corollary AddOrderToBack_appends h p ls x ox :
  list_rep h p ls → h !! x = Some ox → x ∉ ls →
  ∃ p' h', AddOrderToBack h p x = Some (p', h')
         ∧ list_rep h' p' (ls ++ [x])
         ∧ tickets h' (ls ++ [x]) = tickets h ls ++ [payload ox]
         ∧ (∀ l, l ∉ ls ++ [x] → h' !! l = h !! l).
Proof.
  intros Hrep Hox Hx.
  destruct (AddOrderToBack_spec h p ls x) as (h2 & Hrun & Hrep2 & Hpay & Hfr); eauto.
  exists (head (ls ++ [x])), h2. split_and!; try done.
  rewrite (tickets_fmap_eq _ _ _ Hpay), tickets_app. unfold tickets at 2. simpl.
  rewrite Hox. done.
Qed.

(** C16: The freeing loop of [CloseRestaurant] frees exactly the cells of the
    list, each once, given as much fuel as the list is long. *)
Theorem free_orders_spec fuel h p ls :
  list_rep h p ls → length ls ≤ fuel →
  ∃ h', free_orders fuel h p = Some h'
      ∧ ∀ l, h' !! l = if decide (l ∈ ls) then None else h !! l.
Proof.
  revert h p fuel. induction ls as [|l ls IH]; intros h p fuel; simpl.
  - intros -> _. exists h. destruct fuel; split; done.
  - intros [-> (o & Ho & H)] Hf. destruct fuel as [|fuel]; [lia |]. simpl.
    rewrite Ho. simpl. unfold free. rewrite Ho. simpl.
    assert (Hnd : NoDup (l :: ls)) by (eapply (list_rep_NoDup h (Some l)); simpl; eauto).
    apply NoDup_cons in Hnd as [Hl _].
    destruct (IH (delete l h) (next o) fuel) as (h' & Hrun & Hlk);
      [apply list_rep_delete_notin; done | lia |].
    exists h'. split; [done |]. intros l'. rewrite Hlk.
    destruct (decide (l' = l)) as [->|Hne].
    + rewrite lookup_delete_eq. repeat case_decide; set_solver.
    + rewrite lookup_delete_ne by congruence. repeat case_decide; set_solver.
Qed.

(** ** Concrete runs *)

(** Two orders linked [1 -> 2] and a fresh cell [3]. *)
Definition demo_heap : heap :=
  <[1 := mkOrder "BensChilli" 7 1 (Some 2)]>
  (<[2 := mkOrder "BensShake" 8 2 None]>
  (<[3 := mkOrder "BensCake" 9 0 (Some 1)]> ∅)).

Lemma tail_of_spec_witness : tail_of 3 demo_heap 1 = Some 2.
Proof. apply (tail_of_spec 3 demo_heap 1 [1; 2]); [decide_true | simpl; lia]. Defined.

Lemma AddOrderToBack_spec_witness :
  ∃ h', AddOrderToBack demo_heap (Some 1) 3 = Some (head ([1; 2] ++ [3]), h')
      ∧ list_rep h' (head ([1; 2] ++ [3])) ([1; 2] ++ [3])
      ∧ payload <$> h' = payload <$> demo_heap
      ∧ (∀ l, l ∉ [1; 2] ++ [3] → h' !! l = demo_heap !! l).
Proof. apply AddOrderToBack_spec; [decide_true | vm_compute; eauto | decide_true]. Defined.

Lemma AddOrderToBack_appends_witness :
  ∃ p' h', AddOrderToBack demo_heap (Some 1) 3 = Some (p', h')
         ∧ list_rep h' p' ([1; 2] ++ [3])
         ∧ tickets h' ([1; 2] ++ [3])
           = tickets demo_heap [1; 2] ++ [payload (mkOrder "BensCake" 9 0 (Some 1))]
         ∧ (∀ l, l ∉ [1; 2] ++ [3] → h' !! l = demo_heap !! l).
Proof.
  apply (AddOrderToBack_appends demo_heap (Some 1) [1; 2] 3); [decide_true | reflexivity | decide_true].
Defined.

Lemma free_orders_spec_witness :
  ∃ h', free_orders 2 demo_heap (Some 1) = Some h'
      ∧ ∀ l, h' !! l = if decide (l ∈ [1; 2]) then None else demo_heap !! l.
Proof. apply (free_orders_spec 2 demo_heap (Some 1) [1; 2]); [decide_true | simpl; lia]. Defined.

End Heap.
