(* ===== verification/Restaurant.v ===== *)
(** * The monitor of [BENSCHILLIBOWL.c]: its state and its critical sections

    [BENSCHILLIBOWL] is the shared struct (its mutex and condition variables
    are modelled in [Threads]); [Mem] pairs it with the heap that holds its
    list of orders.  Each C function is translated as far as it runs with
    the mutex held: [AddOrder] and [GetOrder] are one pass of their
    [while] test followed by the rest of the critical section, returning
    [Wait] when the test sends the thread to [pthread_cond_wait]; the
    threads of [Threads] call them again after every wake-up, which is the
    loop.  [Spec] is the abstract bounded FIFO the spec describes, and the
    refinement theorems show that the heap-level operations implement it. *)

From S2P Require Import Prelude Heap.
Import Heap.

Module Restaurant.

(** ** Data *)

(** The fields of [struct BENSCHILLIBOWL] other than the synchronisation
    primitives. *)
Record BENSCHILLIBOWL := mkBCB {
  orders : option loc;
  current_size : Z;
  max_size : Z;
  next_order_number : Z;
  orders_handled : Z;
  expected_num_orders : Z;
}.

(** What the mutex protects: the struct and the heap cells of its list. *)
Record Mem := mkMem { bcb : BENSCHILLIBOWL; hp : heap }.

(** Why a run stops abnormally. *)
Inductive fault :=
  | AssertionFailed      (** an [assert] of [CloseRestaurant] fails *)
  | BadPointer.          (** a dereference of [NULL] or of freed memory *)

(** The result of running a critical section once. *)
Inductive outcome (A : Type) :=
  | Wait                 (** the [while] test holds: [pthread_cond_wait] *)
  | Ret (a : A)          (** the call returns [a] *)
  | Crash (f : fault).
Arguments Wait {A}.
Arguments Ret {A} a.
Arguments Crash {A} f.

(** ** Operations *)

(** The menu, lines 11-23. *)
Definition BENSCHILLIBOWLMenu : list string :=
  ["BensChilli"; "BensHalfSmoke"; "BensHotDog"; "BensChilliCheeseFries"; "BensShake";
   "BensHotCakes"; "BensCake"; "BensHamburger"; "BensVeggieBurger"; "BensOnionRings"]%string.

Definition BENSCHILLIBOWLMenuLength : Z := 10.

(** [PickRandomMenuItem], lines 26-29, given the value [r] of [rand()]:
    C's [%] truncates toward zero ([Z.rem]); a negative or too large index
    would read outside the array ([None]). *)
Definition PickRandomMenuItem (r : Z) : option string :=
  let index := Z.rem r BENSCHILLIBOWLMenuLength in
  if (0 <=? index)%Z then BENSCHILLIBOWLMenu !! Z.to_nat index else None.

(** [OpenRestaurant(max_size, expected_num_orders)], lines 43-48: the
    fields of the new monitor.  The [malloc] of the struct (lines 37-41,
    [exit(1)] on failure) happens before any thread exists and is not
    modelled; [srand] (line 35) and [printf] (line 54) do not touch the
    state; the mutex and the condition variables set up at lines 50-52
    start free and with no waiter, which is how [Threads.init] starts them. *)
Definition OpenRestaurant (max_size expected_num_orders : Z) : BENSCHILLIBOWL :=
  mkBCB None 0 max_size 1 0 expected_num_orders.

Definition IsEmpty (b : BENSCHILLIBOWL) : bool := (current_size b =? 0)%Z.

Definition IsFull (b : BENSCHILLIBOWL) : bool := (max_size b <=? current_size b)%Z.

(** [AddOrder] after its wait loop, lines 96-103: number the order, link it
    at the back, count it, and read its number back. *)
Definition AddOrder_enqueue (m : Mem) (order : loc) : option (Z * Mem) :=
  let b := bcb m in
  h1 ← store (hp m) order (with_number (next_order_number b));
  '(hd, h2) ← AddOrderToBack h1 (orders b) order;
  o ← h2 !! order;
  Some (order_number o,
        mkMem (mkBCB hd (current_size b + 1) (max_size b)
                     (next_order_number b + 1) (orders_handled b)
                     (expected_num_orders b)) h2).

(** One pass of [AddOrder] with the mutex held (lines 91-104). *)
Definition AddOrder (m : Mem) (order : loc) : outcome (Z * Mem) :=
  if IsFull (bcb m) then Wait
  else match AddOrder_enqueue m order with
       | Some r => Ret r
       | None => Crash BadPointer
       end.

(** The test of [GetOrder]'s wait loop (line 114) and its drain test
    (line 119). *)
Definition GetOrder_must_wait (b : BENSCHILLIBOWL) : bool :=
  IsEmpty b && (orders_handled b <? expected_num_orders b)%Z.

Definition GetOrder_drained (b : BENSCHILLIBOWL) : bool :=
  IsEmpty b && (expected_num_orders b <=? orders_handled b)%Z.

(** Lines 127-132: unlink the head ([order->next] on a [NULL] head is a bad
    pointer), clear its link, count it. *)
Definition GetOrder_dequeue (m : Mem) : option (loc * Mem) :=
  let b := bcb m in
  order ← orders b;
  o ← hp m !! order;
  h1 ← store (hp m) order (with_next None);
  Some (order,
        mkMem (mkBCB (next o) (current_size b - 1) (max_size b)
                     (next_order_number b) (orders_handled b + 1)
                     (expected_num_orders b)) h1).

(** One pass of [GetOrder] with the mutex held (lines 114-138): [Ret None]
    is the [return NULL] of the drained queue (after the broadcast), and
    [Ret (Some l)] returns the order at [l]. *)
Definition GetOrder (m : Mem) : outcome (option loc * Mem) :=
  if GetOrder_must_wait (bcb m) then Wait
  else if GetOrder_drained (bcb m) then Ret (None, m)
  else match GetOrder_dequeue m with
       | Some (l, m') => Ret (Some l, m')
       | None => Crash BadPointer
       end.

(** [CloseRestaurant], lines 62-81: the two assertions, then the loop that
    frees the leftover orders; the result is the heap afterwards. *)
Definition CloseRestaurant (m : Mem) : outcome heap :=
  let b := bcb m in
  if negb (orders_handled b =? expected_num_orders b)%Z then Crash AssertionFailed
  else if negb (IsEmpty b) then Crash AssertionFailed
  else match free_orders (size (hp m)) (hp m) (orders b) with
       | Some h => Ret h
       | None => Crash BadPointer
       end.

(** ** The abstract bounded FIFO of the spec (section 4.1) *)

Module Spec.

Record queue := mkQ {
  items : list Ticket;
  capacity : Z;
  next_seq : Z;
  completed : Z;
  expected : Z;
}.

Definition create (capacity expected : Z) : queue := mkQ [] capacity 1 0 expected.

Definition enqueue (q : queue) (item : string) (customer : Z) : outcome (Z * queue) :=
  if (capacity q <=? Z.of_nat (length (items q)))%Z then Wait
  else Ret (next_seq q,
            mkQ (items q ++ [mkTicket item customer (next_seq q)]) (capacity q)
                (next_seq q + 1) (completed q) (expected q)).

Definition dequeue (q : queue) : outcome (option Ticket * queue) :=
  match items q with
  | [] => if (completed q <? expected q)%Z then Wait else Ret (None, q)
  | t :: rest => Ret (Some t, mkQ rest (capacity q) (next_seq q) (completed q + 1) (expected q))
  end.

End Spec.

(** The abstract queue a monitor state stands for, given the cells [ls] of
    its list. *)
Definition abs (m : Mem) (ls : list loc) : Spec.queue :=
  let b := bcb m in
  Spec.mkQ (tickets (hp m) ls) (max_size b) (next_order_number b)
           (orders_handled b) (expected_num_orders b).

(** ** The representation invariant *)

(** [rep m ls]: the list of [m] is the cells [ls]; [current_size] counts
    them and never exceeds [max_size]; their order numbers are the
    consecutive numbers after the [orders_handled] already served; and
    [next_order_number - 1 = current_size + orders_handled]. *)
Definition rep (m : Mem) (ls : list loc) : Prop :=
  let b := bcb m in
  list_rep (hp m) (orders b) ls
  ∧ Z.of_nat (length ls) = current_size b
  ∧ (current_size b ≤ max_size b)%Z
  ∧ (0 ≤ orders_handled b)%Z
  ∧ next_order_number b = (current_size b + orders_handled b + 1)%Z
  ∧ t_number <$> tickets (hp m) ls = seqZ (orders_handled b + 1) (current_size b).

Definition inv (m : Mem) : Prop := ∃ ls, rep m ls.

#[export] Instance rep_dec m ls : Decision (rep m ls).
Proof. unfold rep. apply _. Defined.

(** The simulation diagrams of the two monitor operations: the concrete
    pass and the abstract operation agree on waiting, on the value
    returned and on the state reached, and the concrete pass does not
    crash. *)
Definition sim_AddOrder (m : Mem) (ls : list loc) (x : loc) (ox : Order) : Prop :=
  match AddOrder m x with
  | Wait => Spec.enqueue (abs m ls) (menu_item ox) (customer_id ox) = Wait
  | Ret (n, m') =>
      rep m' (ls ++ [x])
      ∧ Spec.enqueue (abs m ls) (menu_item ox) (customer_id ox) = Ret (n, abs m' (ls ++ [x]))
  | Crash _ => False
  end.

Definition sim_GetOrder (m : Mem) (ls : list loc) : Prop :=
  match GetOrder m with
  | Wait => Spec.dequeue (abs m ls) = Wait
  | Ret (None, m') => m' = m ∧ Spec.dequeue (abs m ls) = Ret (None, abs m ls)
  | Ret (Some l, m') =>
      ∃ ls' o, ls = l :: ls' ∧ rep m' ls'
             ∧ hp m' !! l = Some o ∧ next o = None
             ∧ Spec.dequeue (abs m ls) = Ret (Some (payload o), abs m' ls')
  | Crash _ => False
  end.

(** ** Lemmas on the critical sections *)

Lemma rep_unique m ls1 ls2 : rep m ls1 → rep m ls2 → ls1 = ls2.
Proof. intros [H1 _] [H2 _]. eapply list_rep_det; eauto. Qed.

Lemma rep_cells m ls l : rep m ls → l ∈ ls → is_Some (hp m !! l).
Proof. intros [H _]. eauto using list_rep_lookup. Qed.

(** The invariant only depends on the cells of the list. *)
Lemma rep_frame m h' ls :
  rep m ls → (∀ l, l ∈ ls → h' !! l = hp m !! l) → rep (mkMem (bcb m) h') ls.
Proof.
  intros (Hrep & Hlen & Hcap & Hh & Hnext & Hnums) Hext. repeat split; try done.
  - eapply list_rep_ext; eauto.
  - simpl. rewrite (tickets_ext h' (hp m)); [done |]. intros l Hl. rewrite Hext; done.
Qed.


Lemma seqZ_snoc (a n : Z) : (0 ≤ n)%Z → seqZ a (n + 1) = seqZ a n ++ [(a + n)%Z].
Proof. intros Hn. rewrite seqZ_app by lia. done. Qed.

(** The body of [AddOrder] on a well-formed monitor and a cell [x] outside
    the list: it returns [next_order_number], links [x] last, and the only
    payload it changes is [x]'s number. *)
Lemma AddOrder_enqueue_spec m ls x ox :
  rep m ls → hp m !! x = Some ox → x ∉ ls →
  ∃ h', AddOrder_enqueue m x =
          Some (next_order_number (bcb m),
                mkMem (mkBCB (head (ls ++ [x])) (current_size (bcb m) + 1)
                             (max_size (bcb m)) (next_order_number (bcb m) + 1)
                             (orders_handled (bcb m)) (expected_num_orders (bcb m))) h')
      ∧ list_rep h' (head (ls ++ [x])) (ls ++ [x])
      ∧ payload <$> h' = payload <$> <[x := with_number (next_order_number (bcb m)) ox]> (hp m)
      ∧ (∀ l, l ∉ ls ++ [x] → h' !! l = hp m !! l).
Proof.
  intros (Hrep & _) Hox Hx. unfold AddOrder_enqueue.
  rewrite (store_lookup _ _ _ _ Hox). simpl.
  set (n := next_order_number (bcb m)).
  set (h1 := <[x := with_number n ox]> (hp m)).
  destruct (AddOrderToBack_spec h1 (orders (bcb m)) ls x) as (h2 & Hrun & Hrep2 & Hpay & Hfr).
  { apply list_rep_insert_notin; done. }
  { subst h1. rewrite lookup_insert_eq. eauto. }
  { done. }
  rewrite Hrun. simpl.
  assert (Hx2 : (payload <$> h2) !! x = Some (payload (with_number n ox))).
  { rewrite Hpay, lookup_fmap. subst h1. rewrite lookup_insert_eq. done. }
  rewrite lookup_fmap in Hx2. destruct (h2 !! x) as [o2|] eqn:Ho2; [| done].
  apply (f_equal (fmap t_number)) in Hx2. simpl in Hx2. injection Hx2 as Hn2. simpl. rewrite Hn2.
  eexists; split; [done |]. split; [done |]. split; [done |].
  intros l Hl. rewrite Hfr by done. subst h1. rewrite lookup_insert_ne by set_solver. done.
Qed.

(** The body of [GetOrder] on a non-empty well-formed list unlinks its head
    and clears that cell's [next]. *)
Lemma GetOrder_dequeue_spec m l ls :
  rep m (l :: ls) →
  ∃ o, hp m !! l = Some o
     ∧ GetOrder_dequeue m =
         Some (l, mkMem (mkBCB (next o) (current_size (bcb m) - 1) (max_size (bcb m))
                               (next_order_number (bcb m)) (orders_handled (bcb m) + 1)
                               (expected_num_orders (bcb m)))
                        (<[l := with_next None o]> (hp m)))
     ∧ list_rep (hp m) (next o) ls.
Proof.
  intros ([Hhd (o & Ho & Hrep)] & _). exists o. split; [done |].
  unfold GetOrder_dequeue. rewrite Hhd. simpl. rewrite Ho. simpl.
  rewrite (store_lookup _ _ _ _ Ho). simpl. split; done.
Qed.

Lemma rep_size m ls : rep m ls → length (tickets (hp m) ls) = Z.to_nat (current_size (bcb m)).
Proof. intros (Hrep & Hlen & _). rewrite (tickets_length _ _ _ Hrep). lia. Qed.

(** The body of [AddOrder] when there is room: the monitor stays well
    formed with [x] linked last, [x]'s payload, numbered
    [next_order_number], is appended, and no other cell changes. *)
Lemma AddOrder_enqueue_ok m ls x ox :
  rep m ls → hp m !! x = Some ox → x ∉ ls → (current_size (bcb m) < max_size (bcb m))%Z →
  ∃ m', AddOrder_enqueue m x = Some (next_order_number (bcb m), m')
      ∧ rep m' (ls ++ [x])
      ∧ tickets (hp m') (ls ++ [x])
        = tickets (hp m) ls ++ [payload (with_number (next_order_number (bcb m)) ox)]
      ∧ current_size (bcb m') = (current_size (bcb m) + 1)%Z
      ∧ orders_handled (bcb m') = orders_handled (bcb m)
      ∧ max_size (bcb m') = max_size (bcb m)
      ∧ expected_num_orders (bcb m') = expected_num_orders (bcb m)
      ∧ next_order_number (bcb m') = (next_order_number (bcb m) + 1)%Z
      ∧ (∀ l, l ∉ ls ++ [x] → hp m' !! l = hp m !! l).
Proof.
  intros Hr Hox Hx Hfree.
  destruct (AddOrder_enqueue_spec m ls x ox Hr Hox Hx) as (h' & Hrun & Hrep' & Hpay & Hfr).
  destruct Hr as (Hrep & Hlen & Hcap & Hh & Hnext & Hnums).
  pose proof (tickets_snoc_update (hp m) h' ls x _ Hx Hpay) as Htk.
  eexists; split; [exact Hrun |]. simpl. split_and!; try done; try lia.
  repeat split; simpl; try done; try lia.
  - rewrite length_app. simpl. lia.
  - rewrite Htk, fmap_app, Hnums. simpl. rewrite seqZ_snoc by lia. do 2 f_equal. lia.
Qed.

(** The body of [GetOrder] on a non-empty well-formed list: the rest of
    the list is a well-formed monitor, the head carries number
    [orders_handled + 1], and the payloads of the rest are unchanged. *)
Lemma GetOrder_dequeue_ok m l ls :
  rep m (l :: ls) →
  ∃ o, hp m !! l = Some o
     ∧ GetOrder_dequeue m =
         Some (l, mkMem (mkBCB (next o) (current_size (bcb m) - 1) (max_size (bcb m))
                               (next_order_number (bcb m)) (orders_handled (bcb m) + 1)
                               (expected_num_orders (bcb m)))
                        (<[l := with_next None o]> (hp m)))
     ∧ rep (mkMem (mkBCB (next o) (current_size (bcb m) - 1) (max_size (bcb m))
                         (next_order_number (bcb m)) (orders_handled (bcb m) + 1)
                         (expected_num_orders (bcb m)))
                  (<[l := with_next None o]> (hp m))) ls
     ∧ t_number (payload o) = (orders_handled (bcb m) + 1)%Z
     ∧ tickets (<[l := with_next None o]> (hp m)) ls = tickets (hp m) ls.
Proof.
  intros Hr. destruct (GetOrder_dequeue_spec m l ls Hr) as (o & Ho & Hrun & Hrep').
  assert (Hl : l ∉ ls).
  { destruct Hr as [Hrep _]. apply list_rep_NoDup in Hrep. apply NoDup_cons in Hrep as [? _]. done. }
  destruct Hr as (Hrep & Hlen & Hcap & Hh & Hnext & Hnums). simpl in Hlen.
  rewrite (tickets_cons_lookup _ _ _ _ Ho), seqZ_cons in Hnums by lia.
  injection Hnums as Hn Hnums.
  exists o. split_and!; try done.
  - repeat split; simpl; try lia.
    + apply list_rep_insert_notin; done.
    + rewrite tickets_insert_notin by done. etransitivity; [exact Hnums |]. f_equal; lia.
  - apply tickets_insert_notin. done.
Qed.

(** [AddOrder] and [GetOrder] on a well-formed monitor never crash. *)
Lemma AddOrder_safe m ls x ox e :
  rep m ls → hp m !! x = Some ox → x ∉ ls → AddOrder m x ≠ Crash e.
Proof.
  intros Hr Hox Hx. unfold AddOrder, IsFull. case_tests; [done |].
  destruct (AddOrder_enqueue_ok m ls x ox) as (m' & -> & _); [done | done | done | lia | done].
Qed.

Lemma GetOrder_safe m ls e : rep m ls → GetOrder m ≠ Crash e.
Proof.
  intros Hr. unfold GetOrder, GetOrder_must_wait, GetOrder_drained, IsEmpty.
  destruct ls as [|l ls].
  - destruct Hr as (_ & Hlen & _). simpl in Hlen. rewrite <- Hlen. simpl.
    case_tests; try done; lia.
  - destruct (GetOrder_dequeue_ok m l ls Hr) as (o & _ & -> & _).
    destruct Hr as (_ & Hlen & _). simpl in Hlen. case_tests; simpl; try lia; done.
Qed.

(** ** Refinement of the abstract queue *)

(** C7: On a well-formed monitor and a fresh cell
    [x], one pass of [AddOrder] waits exactly when the abstract [enqueue]
    waits, never crashes, and otherwise returns the same sequence number
    and a well-formed monitor whose abstraction is the abstract result. *)
Theorem AddOrder_refines m ls x ox :
  rep m ls → hp m !! x = Some ox → x ∉ ls → sim_AddOrder m ls x ox.
Proof.
  intros Hr Hox Hx. unfold sim_AddOrder. pose proof (rep_size _ _ Hr) as Hsz.
  pose proof Hr as (_ & Hlen & _).
  unfold AddOrder, Spec.enqueue, IsFull, abs. simpl. rewrite Hsz, Z2Nat.id by lia.
  destruct (Z.leb_spec (max_size (bcb m)) (current_size (bcb m))) as [Hfull|Hfree]; [done |].
  destruct (AddOrder_enqueue_ok m ls x ox Hr Hox Hx Hfree)
    as (m' & -> & Hrep' & Htk & _ & Hh' & Hmax' & Hexp' & Hnext' & _).
  split; [done |]. unfold abs. rewrite Htk, Hh', Hmax', Hexp', Hnext'. done.
Qed.

(** C8: On a well-formed monitor, one pass of
    [GetOrder] waits exactly when the abstract [dequeue] waits, returns
    [NULL] exactly when it reports [Done], never crashes, and otherwise
    hands out the head cell (with its link cleared) whose payload is the
    abstract head, leaving a well-formed monitor for the rest of the list. *)
Theorem GetOrder_refines m ls :
  rep m ls → sim_GetOrder m ls.
Proof.
  intros Hr. unfold sim_GetOrder. destruct ls as [|l ls].
  - destruct Hr as (Hrep & Hlen & Hcap & Hh & Hnext & Hnums).
    simpl in Hlen. unfold GetOrder, GetOrder_must_wait, GetOrder_drained, IsEmpty.
    unfold Spec.dequeue, abs. simpl. rewrite <- Hlen. simpl.
    case_tests; simpl; try lia; done.
  - destruct (GetOrder_dequeue_ok m l ls Hr) as (o & Ho & Hrun & Hrep' & _ & Htk).
    pose proof Hr as (_ & Hlen & _). simpl in Hlen.
    unfold GetOrder, GetOrder_must_wait, GetOrder_drained, IsEmpty.
    rewrite <- Hlen. simpl. rewrite Hrun.
    exists ls, (with_next None o). split_and!; [done | done | apply lookup_insert_eq | done |].
    unfold Spec.dequeue, abs. rewrite (tickets_cons_lookup _ _ _ _ Ho). simpl. rewrite Htk. done.
Qed.

(** ** The menu *)

(** A non-negative value of [rand()] selects an entry of the menu. *)
Lemma PickRandomMenuItem_some (r : Z) :
  (0 ≤ r)%Z → ∃ item, PickRandomMenuItem r = Some item ∧ item ∈ BENSCHILLIBOWLMenu.
Proof.
  intros Hr. unfold PickRandomMenuItem, BENSCHILLIBOWLMenuLength.
  pose proof (Z.rem_bound_pos r 10 ltac:(lia) ltac:(lia)) as Hb.
  case_tests; [| lia].
  destruct (lookup_lt_is_Some_2 BENSCHILLIBOWLMenu (Z.to_nat (Z.rem r 10))) as [item Hi].
  { simpl. lia. }
  exists item. split; [done |]. eapply list_elem_of_lookup_2; eauto.
Qed.

(** C17: The index [rand() % BENSCHILLIBOWLMenuLength] is never out of the
    array: every value [rand()] can return selects an entry of the menu,
    and every entry is selected by some value. *)
Theorem PickRandomMenuItem_in_menu :
  (∀ r, (0 ≤ r ≤ RAND_MAX)%Z →
        ∃ item, PickRandomMenuItem r = Some item ∧ item ∈ BENSCHILLIBOWLMenu)
  ∧ (∀ item, item ∈ BENSCHILLIBOWLMenu →
        ∃ r, (0 ≤ r ≤ RAND_MAX)%Z ∧ PickRandomMenuItem r = Some item).
Proof.
  split; [intros r Hr; apply PickRandomMenuItem_some; lia |].
  intros item Hin. apply list_elem_of_lookup_1 in Hin as [i Hi].
  pose proof (lookup_lt_Some _ _ _ Hi) as Hlt. simpl in Hlt.
  exists (Z.of_nat i). unfold RAND_MAX, INT_MAX. split; [lia |].
  unfold PickRandomMenuItem, BENSCHILLIBOWLMenuLength.
  rewrite Z.rem_small by lia. case_tests; [| lia]. rewrite Nat2Z.id. done.
Qed.

(** ** Creation and teardown *)

(** C18: [OpenRestaurant] with a non-negative capacity gives a well-formed
    monitor with an empty list, standing for the abstract [create]. *)
Lemma OpenRestaurant_rep (cap e : Z) (h : heap) :
  (0 ≤ cap)%Z →
  rep (mkMem (OpenRestaurant cap e) h) [] ∧ abs (mkMem (OpenRestaurant cap e) h) [] = Spec.create cap e.
Proof. intros Hc. repeat split; simpl; done || lia. Qed.

(** [CloseRestaurant] after every expected order was handled, on an
    empty list: no assertion fails and nothing is freed. *)
Lemma CloseRestaurant_ok m :
  rep m [] → orders_handled (bcb m) = expected_num_orders (bcb m) →
  CloseRestaurant m = Ret (hp m).
Proof.
  intros (Hrep & Hlen & _) Hh. unfold CloseRestaurant, IsEmpty. simpl in *.
  rewrite Hrep, <- Hlen, Hh, Z.eqb_refl. simpl. destruct (size (hp m)); done.
Qed.

(** C15: On a well-formed monitor, [CloseRestaurant]
    succeeds, freeing nothing, exactly when every expected order was
    handled and the list is empty; otherwise one of its assertions fails. *)
Theorem CloseRestaurant_spec m ls :
  rep m ls →
  CloseRestaurant m =
    if (orders_handled (bcb m) =? expected_num_orders (bcb m))%Z && bool_decide (ls = [])
    then Ret (hp m) else Crash AssertionFailed.
Proof.
  intros (Hrep & Hlen & _). unfold CloseRestaurant, IsEmpty.
  destruct ls as [|l ls]; simpl in *.
  - rewrite Hrep, <- Hlen. simpl. destruct (size (hp m)); case_tests; done.
  - rewrite andb_false_r. case_tests; simpl; try done; lia.
Qed.

(** [OpenRestaurant] does not check its capacity.  On the monitor it
    returns, as long as nothing was queued or handled: with a capacity of
    0 or less every [AddOrder] waits; with orders expected every [GetOrder]
    waits; and [CloseRestaurant] fails its first assertion. *)
Lemma AddOrder_opened_wait m cap e x :
  bcb m = OpenRestaurant cap e → (cap ≤ 0)%Z → AddOrder m x = Wait.
Proof. intros Hb Hcap. unfold AddOrder, IsFull. rewrite Hb. simpl. case_tests; [done | lia]. Qed.

Lemma GetOrder_opened_wait m cap e :
  bcb m = OpenRestaurant cap e → (0 < e)%Z → GetOrder m = Wait.
Proof.
  intros Hb He. unfold GetOrder, GetOrder_must_wait, IsEmpty. rewrite Hb. simpl.
  case_tests; [done | lia].
Qed.

Lemma CloseRestaurant_opened m cap e :
  bcb m = OpenRestaurant cap e → (0 < e)%Z → CloseRestaurant m = Crash AssertionFailed.
Proof. intros Hb He. unfold CloseRestaurant. rewrite Hb. simpl. destruct e; [lia | done | lia]. Qed.

(** ** The effect of a successful pass, for the thread model *)

(** A pass of [AddOrder] that returns: the fields it changes, the payloads
    of the list, and the cells it leaves alone. *)
Lemma AddOrder_Ret m ls x ox n m' :
  rep m ls → hp m !! x = Some ox → x ∉ ls → AddOrder m x = Ret (n, m') →
  rep m' (ls ++ [x])
  ∧ n = next_order_number (bcb m)
  ∧ current_size (bcb m') = (current_size (bcb m) + 1)%Z
  ∧ orders_handled (bcb m') = orders_handled (bcb m)
  ∧ max_size (bcb m') = max_size (bcb m)
  ∧ expected_num_orders (bcb m') = expected_num_orders (bcb m)
  ∧ (current_size (bcb m) < max_size (bcb m))%Z
  ∧ tickets (hp m') ls = tickets (hp m) ls
  ∧ tickets (hp m') [x] = [payload (with_number n ox)]
  ∧ (∀ l, l ∉ ls ++ [x] → hp m' !! l = hp m !! l).
Proof.
  intros Hr Hox Hx Hrun. unfold AddOrder, IsFull in Hrun. case_tests; [done |].
  destruct (AddOrder_enqueue_ok m ls x ox Hr Hox Hx) as (m1 & Hrun' & Hrep' & Htk & Hsz' & Hh' & Hmax' & Hexp' & _ & Hfr);
    [lia |].
  rewrite Hrun' in Hrun. injection Hrun as <- <-.
  destruct (rep_cells _ _ x Hrep') as [o Ho]; [set_solver |].
  rewrite tickets_app, (tickets_cons_lookup _ _ _ _ Ho) in Htk. simpl in Htk.
  apply app_inj_tail in Htk as [Hls Hx'].
  rewrite (tickets_cons_lookup _ _ _ _ Ho), Hx'. split_and!; try done; lia.
Qed.

(** A pass of [GetOrder] that returns an order: it is the head of the
    list, its payload carries number [orders_handled + 1], and only its
    own cell changes. *)
Lemma GetOrder_Ret_Some m ls l m' :
  rep m ls → GetOrder m = Ret (Some l, m') →
  ∃ ls' o, ls = l :: ls' ∧ rep m' ls'
         ∧ hp m !! l = Some o
         ∧ hp m' = <[l := with_next None o]> (hp m)
         ∧ t_number (payload o) = (orders_handled (bcb m) + 1)%Z
         ∧ current_size (bcb m') = (current_size (bcb m) - 1)%Z
         ∧ orders_handled (bcb m') = (orders_handled (bcb m) + 1)%Z
         ∧ max_size (bcb m') = max_size (bcb m)
         ∧ expected_num_orders (bcb m') = expected_num_orders (bcb m).
Proof.
  intros Hr Hrun. pose proof Hr as (_ & Hlen & _).
  unfold GetOrder, GetOrder_must_wait, GetOrder_drained, IsEmpty in Hrun.
  destruct ls as [|l0 ls'].
  - simpl in Hlen. rewrite <- Hlen in Hrun. simpl in Hrun. case_tests; try done; lia.
  - destruct (GetOrder_dequeue_ok m l0 ls' Hr) as (o & Ho & Hdq & Hrep' & Hn & _).
    simpl in Hlen. destruct (Z.eqb_spec (current_size (bcb m)) 0); [lia |].
    simpl in Hrun. rewrite Hdq in Hrun. injection Hrun as <- <-.
    exists ls', o. split_and!; simpl; done.
Qed.

(** A pass of [GetOrder] that returns [NULL] leaves the monitor as it was,
    which is empty with every expected order handled. *)
Lemma GetOrder_Ret_None m m' :
  GetOrder m = Ret (None, m') →
  m' = m ∧ current_size (bcb m) = 0%Z
  ∧ (expected_num_orders (bcb m) ≤ orders_handled (bcb m))%Z.
Proof.
  unfold GetOrder, GetOrder_must_wait, GetOrder_drained, IsEmpty.
  destruct (Z.eqb_spec (current_size (bcb m)) 0) as [He|He]; simpl.
  - destruct (Z.ltb_spec (orders_handled (bcb m)) (expected_num_orders (bcb m))); simpl; [done |].
    destruct (Z.leb_spec (expected_num_orders (bcb m)) (orders_handled (bcb m))); simpl; [| lia].
    intros [= ->]. split_and!; done.
  - destruct (GetOrder_dequeue m) as [[]|]; done.
Qed.

(** ** Concrete runs *)

(** Capacity 2, three orders expected, order 1 queued at cell [1], the
    fresh order of customer 8 at cell [2]. *)
Definition demo_mem : Mem :=
  mkMem (mkBCB (Some 1) 1 2 2 0 3)
        (<[1 := mkOrder "BensChilli" 7 1 None]> (<[2 := mkOrder "BensShake" 8 0 None]> ∅)).

Example demo_AddOrder :
  (λ r, match r with Ret (n, m') => Some (n, current_size (bcb m')) | _ => None end)
    (AddOrder demo_mem 2) = Some (2%Z, 2%Z).
Proof. vm_compute. reflexivity. Qed.

Lemma AddOrder_refines_witness : sim_AddOrder demo_mem [1] 2 (mkOrder "BensShake" 8 0 None).
Proof. apply AddOrder_refines; [decide_true | reflexivity | decide_true]. Defined.

Lemma GetOrder_refines_witness : sim_GetOrder demo_mem [1].
Proof. apply GetOrder_refines. decide_true. Defined.

(** All three orders handled and the list empty. *)
Definition drained_mem : Mem := mkMem (mkBCB None 0 2 4 3 3) ∅.

Lemma CloseRestaurant_spec_witness : CloseRestaurant drained_mem = Ret ∅.
Proof. apply (CloseRestaurant_spec drained_mem []). decide_true. Defined.

Lemma PickRandomMenuItem_in_menu_witness :
  ∃ item, PickRandomMenuItem 1234567 = Some item ∧ item ∈ BENSCHILLIBOWLMenu.
Proof. apply (proj1 PickRandomMenuItem_in_menu). unfold RAND_MAX, INT_MAX. lia. Defined.

Lemma OpenRestaurant_rep_witness :
  rep (mkMem (OpenRestaurant 2 3) ∅) [] ∧ abs (mkMem (OpenRestaurant 2 3) ∅) [] = Spec.create 2 3.
Proof. apply OpenRestaurant_rep. lia. Defined.


End Restaurant.
