(* ===== verification/Threads.v ===== *)
(** * The concurrent program: customers, cooks and [main] over the monitor

    The threads of [src/main.c] are program counters ([pc]) of a thread
    pool; the pool, the mutex owner, the monitor memory ([Restaurant.Mem])
    and two ghost logs form a [World].  [step w t c] runs one atomic step of
    thread [t] under the environment's choice [c] (the address [malloc]
    returns or its failure, the value of [rand()], the waiter a
    [pthread_cond_signal] wakes), or is [None] when [t] cannot move
    (blocked on the mutex, joining a live thread, or an invalid choice).
    Every step that touches the monitor holds the mutex, so running the
    whole critical section of one pass of [AddOrder]/[GetOrder] as one step
    loses no interleaving.  [pthread_cond_wait] releases the mutex and
    parks the thread; a signal or broadcast moves it back to re-acquiring
    the mutex, after which it re-runs the loop test.  Spurious wake-ups are
    steps of their own ([spurious]).

    The ghost logs [log_in] (tickets in the order [AddOrder] queued them)
    and [log_out] (tickets in the order [GetOrder] handed them out) are not
    in the C code; they only record its history for the FIFO theorem. *)

From S2P Require Import Prelude Heap Restaurant.
Import Heap Restaurant.

Module Threads.

(** ** The program's constants *)

(** The [#define]s of [main.c], lines 9-13 ("feel free to play with these
    numbers"): the model is proved for every choice of them. *)
Record Params := mkParams {
  BENSCHILLIBOWL_SIZE : Z;
  NUM_CUSTOMERS : nat;
  NUM_COOKS : nat;
  ORDERS_PER_CUSTOMER : nat;
}.

Definition EXPECTED_NUM_ORDERS (P : Params) : Z :=
  Z.of_nat (NUM_CUSTOMERS P * ORDERS_PER_CUSTOMER P).

Definition main_params : Params := mkParams 100 90 10 3.

(** ** Threads *)

Inductive tid :=
  | Cust (c : nat)     (** [BENSCHILLIBOWLCustomer] with [customer_id = c] *)
  | Cook (k : nat)     (** [BENSCHILLIBOWLCook] with [cook_id = k] *)
  | MainT.             (** [main] *)

#[export] Instance tid_eq_dec : EqDecision tid.
Proof. solve_decision. Defined.

(** Program counters. *)
Inductive pc :=
  (** customer, main.c lines 28-45; [i] orders placed *)
  | CustLoop (i : nat)                 (** at the [for] test *)
  | CustFill (i : nat) (l : loc)       (** [order] allocated at [l] *)
  | CustLock (i : nat) (l : loc)       (** [AddOrder]: acquiring the mutex *)
  | CustCheck (i : nat) (l : loc)      (** [AddOrder]: mutex held, at [while (IsFull)] *)
  | CustWait (i : nat) (l : loc)       (** [AddOrder]: in [pthread_cond_wait(can_add_orders)] *)
  | CustPrint (i : nat) (l : loc) (n : Z)  (** after [AddOrder], at the [printf] *)
  | Aborted (i : nat)                  (** [pthread_exit] after a failed [malloc] *)
  (** cook, main.c lines 62-78; [k] orders fulfilled *)
  | CookLock (k : nat)                 (** [GetOrder]: acquiring the mutex *)
  | CookCheck (k : nat)                (** [GetOrder]: mutex held, at the [while] test *)
  | CookWait (k : nat)                 (** [GetOrder]: in [pthread_cond_wait(can_get_orders)] *)
  | CookGot (k : nat) (l : loc)        (** holds the order at [l]: [printf], [free] *)
  (** main, main.c lines 108-121 *)
  | MainJoin (pending : list tid)      (** joining the threads still in [pending] *)
  | Done.                              (** returned *)

Definition on_can_add (p : pc) : bool :=
  match p with CustWait _ _ => true | _ => false end.

Definition on_can_get (p : pc) : bool :=
  match p with CookWait _ => true | _ => false end.

(** Where a woken waiter goes: back to re-acquiring the mutex. *)
Definition woken (p : pc) : pc :=
  match p with
  | CustWait i l => CustLock i l
  | CookWait k => CookLock k
  | _ => p
  end.

(** The nondeterministic input of one step. *)
Inductive choice :=
  | CNone
  | CMalloc (r : option loc)   (** [malloc]'s result; [None] is [NULL] *)
  | CRand (r : Z)              (** [rand()]'s result *)
  | CWake (w : option tid).    (** the waiter a [pthread_cond_signal] wakes *)

(** ** The world *)

Record World := mkWorld {
  mem : Mem;
  owner : option tid;          (** the thread holding [bcb->mutex] *)
  pcs : tid → pc;
  log_in : list Ticket;        (** ghost *)
  log_out : list Ticket;       (** ghost *)
}.

Inductive config :=
  | Running (w : World)
  | Faulted (t : tid) (at_pc : pc) (f : fault).

Definition upd (f : tid → pc) (t : tid) (p : pc) : tid → pc :=
  λ t', if decide (t' = t) then p else f t'.

Section program.
Context (P : Params).

Definition customer_ids : list nat := seq 1 (NUM_CUSTOMERS P).
Definition cook_ids : list nat := seq 1 (NUM_COOKS P).
Definition worker_tids : list tid := (Cust <$> customer_ids) ++ (Cook <$> cook_ids).

(** [pthread_cond_signal]: [w] must be a thread waiting on the condition
    when there is one, and [None] only when there is none. *)
Definition signal_ok (waiting : pc → bool) (f : tid → pc) (w : option tid) : bool :=
  match w with
  | None => negb (existsb (λ t, waiting (f t)) worker_tids)
  | Some t' => waiting (f t')
  end.

Definition signal (f : tid → pc) (w : option tid) : tid → pc :=
  match w with
  | None => f
  | Some t' => upd f t' (woken (f t'))
  end.

(** [pthread_cond_broadcast(&bcb->can_get_orders)]. *)
Definition broadcast_get (f : tid → pc) : tid → pc :=
  λ t, if on_can_get (f t) then woken (f t) else f t.

Definition with_pc (w : World) (t : tid) (p : pc) : World :=
  mkWorld (mem w) (owner w) (upd (pcs w) t p) (log_in w) (log_out w).

(** [pthread_mutex_lock]: enabled only when the mutex is free. *)
Definition acquire (w : World) (t : tid) (p : pc) : option config :=
  match owner w with
  | None => Some (Running (mkWorld (mem w) (Some t) (upd (pcs w) t p) (log_in w) (log_out w)))
  | Some _ => None
  end.

(** Lines 36-38 of [BENSCHILLIBOWLCustomer]: fill the new order. *)
Definition fill_order (h : heap) (l : loc) (item : string) (c : nat) : option heap :=
  h1 ← store h l (with_item item);
  h2 ← store h1 l (with_customer (Z.of_nat c));
  store h2 l (with_next None).

Definition step (w : World) (t : tid) (ch : choice) : option config :=
  let f := pcs w in
  let m := mem w in
  match t, f t, ch with
  (* BENSCHILLIBOWLCustomer *)
  | Cust c, CustLoop i, CNone =>
      if (i <? ORDERS_PER_CUSTOMER P)%nat then None else Some (Running (with_pc w t Done))
  | Cust c, CustLoop i, CMalloc r =>
      if (i <? ORDERS_PER_CUSTOMER P)%nat then
        match r with
        | None => Some (Running (with_pc w t (Aborted i)))
        | Some l =>
            h ← malloc (hp m) l;
            Some (Running (mkWorld (mkMem (bcb m) h) (owner w) (upd f t (CustFill i l))
                                   (log_in w) (log_out w)))
        end
      else None
  | Cust c, CustFill i l, CRand r =>
      if (0 <=? r)%Z && (r <=? RAND_MAX)%Z then
        match PickRandomMenuItem r with
        | None => Some (Faulted t (CustFill i l) BadPointer)
        | Some item =>
            match fill_order (hp m) l item c with
            | None => Some (Faulted t (CustFill i l) BadPointer)
            | Some h => Some (Running (mkWorld (mkMem (bcb m) h) (owner w)
                                               (upd f t (CustLock i l)) (log_in w) (log_out w)))
            end
        end
      else None
  | Cust c, CustLock i l, CNone => acquire w t (CustCheck i l)
  | Cust c, CustCheck i l, CWake wk =>
      match AddOrder m l with
      | Wait =>
          if bool_decide (wk = None) then
            Some (Running (mkWorld m None (upd f t (CustWait i l)) (log_in w) (log_out w)))
          else None
      | Ret (n, m') =>
          if signal_ok on_can_get f wk then
            Some (Running (mkWorld m' None (upd (signal f wk) t (CustPrint i l n))
                                   (log_in w ++ tickets (hp m') [l]) (log_out w)))
          else None
      | Crash e => Some (Faulted t (CustCheck i l) e)
      end
  | Cust c, CustWait i l, CNone => Some (Running (with_pc w t (CustLock i l)))
  | Cust c, CustPrint i l n, CNone =>
      (* The [printf] reads [order->menu_item]: a fault when the cell is no
         longer allocated.  A cell freed and allocated again at the same
         address by another customer reads without fault here, although in
         C it is still a read of a dead object: the model under-reports at
         this one site. *)
      match hp m !! l with
      | Some _ => Some (Running (with_pc w t (CustLoop (S i))))
      | None => Some (Faulted t (CustPrint i l n) BadPointer)
      end
  (* BENSCHILLIBOWLCook *)
  | Cook k, CookLock j, CNone => acquire w t (CookCheck j)
  | Cook k, CookCheck j, CWake wk =>
      match GetOrder m with
      | Wait =>
          if bool_decide (wk = None) then
            Some (Running (mkWorld m None (upd f t (CookWait j)) (log_in w) (log_out w)))
          else None
      | Ret (None, m') =>
          if bool_decide (wk = None) then
            Some (Running (mkWorld m' None (upd (broadcast_get f) t Done) (log_in w) (log_out w)))
          else None
      | Ret (Some l, m') =>
          if signal_ok on_can_add f wk then
            Some (Running (mkWorld m' None (upd (signal f wk) t (CookGot j l))
                                   (log_in w) (log_out w ++ tickets (hp m') [l])))
          else None
      | Crash e => Some (Faulted t (CookCheck j) e)
      end
  | Cook k, CookWait j, CNone => Some (Running (with_pc w t (CookLock j)))
  | Cook k, CookGot j l, CNone =>
      match hp m !! l with
      | None => Some (Faulted t (CookGot j l) BadPointer)
      | Some _ =>
          match free (hp m) l with
          | None => Some (Faulted t (CookGot j l) BadPointer)
          | Some h => Some (Running (mkWorld (mkMem (bcb m) h) (owner w)
                                             (upd f t (CookLock (S j))) (log_in w) (log_out w)))
          end
      end
  (* main *)
  | MainT, MainJoin (t' :: rest), CNone =>
      match f t' with
      | Done | Aborted _ => Some (Running (with_pc w t (MainJoin rest)))
      | _ => None
      end
  | MainT, MainJoin [], CNone =>
      match owner w with
      | Some _ => None
      | None =>
          match CloseRestaurant m with
          | Ret h => Some (Running (mkWorld (mkMem (bcb m) h) None (upd f t Done)
                                            (log_in w) (log_out w)))
          | Wait => None
          | Crash e => Some (Faulted t (MainJoin []) e)
          end
      end
  | _, _, _ => None
  end.

(** A wake-up no signal caused. *)
Definition spurious (w : World) (t : tid) (ch : choice) : bool :=
  match pcs w t, ch with
  | CustWait _ _, CNone | CookWait _, CNone => true
  | _, _ => false
  end.

Inductive cstep : config → config → Prop :=
  | cstep_intro w t ch c' : step w t ch = Some c' → cstep (Running w) c'.

(** The steps of a run without spurious wake-ups. *)
Inductive fstep : config → config → Prop :=
  | fstep_intro w t ch c' :
      spurious w t ch = false → step w t ch = Some c' → fstep (Running w) c'.

(** [main], lines 93-106: the restaurant opened, every thread started. *)
Definition init_pcs : tid → pc :=
  λ t, match t with
       | Cust c => if decide (c ∈ customer_ids) then CustLoop 0 else Done
       | Cook k => if decide (k ∈ cook_ids) then CookLock 0 else Done
       | MainT => MainJoin worker_tids
       end.

Definition init : World :=
  mkWorld (mkMem (OpenRestaurant (BENSCHILLIBOWL_SIZE P) (EXPECTED_NUM_ORDERS P)) ∅)
          None init_pcs [] [].

Definition reachable (c : config) : Prop := rtc cstep (Running init) c.

(** Running a schedule: the configuration after the steps, or [None] when
    one of them is not enabled. *)
Fixpoint run (c : config) (sched : list (tid * choice)) : option config :=
  match sched with
  | [] => Some c
  | (t, ch) :: rest =>
      match c with
      | Running w => c' ← step w t ch; run c' rest
      | Faulted _ _ _ => None
      end
  end.

End program.

(** ** Views of a program counter *)

(** The cell a thread owns exclusively: the order a customer is placing,
    until [AddOrder] links it, and the order a cook holds, until it frees
    it. *)
Definition owned (p : pc) : option loc :=
  match p with
  | CustFill _ l | CustLock _ l | CustCheck _ l | CustWait _ l | CookGot _ l => Some l
  | _ => None
  end.

Definition holds_lock (p : pc) : bool :=
  match p with CustCheck _ _ | CookCheck _ => true | _ => false end.

Definition terminated (p : pc) : bool :=
  match p with Done | Aborted _ => true | _ => false end.

Lemma woken_owned p : owned (woken p) = owned p.
Proof. destruct p; done. Qed.
Lemma woken_holds_lock p : holds_lock (woken p) = holds_lock p.
Proof. destruct p; done. Qed.
Lemma woken_terminated p : terminated (woken p) = terminated p.
Proof. destruct p; done. Qed.

Lemma upd_eq f t p : upd f t p t = p.
Proof. unfold upd. case_decide; done. Qed.
Lemma upd_ne f t t' p : t' ≠ t → upd f t p t' = f t'.
Proof. unfold upd. case_decide; done. Qed.

(** A view [φ] of program counters that waking does not change is not
    changed by a signal or a broadcast either. *)
Section views.
Context {B : Type} (φ : pc → B) (Hφ : ∀ p, φ (woken p) = φ p).

Lemma signal_view f wk t : φ (signal f wk t) = φ (f t).
Proof.
  destruct wk as [t'|]; simpl; [| done]. unfold upd. case_decide; subst; [apply Hφ | done].
Qed.

Lemma broadcast_view f t : φ (broadcast_get f t) = φ (f t).
Proof. unfold broadcast_get. destruct (on_can_get (f t)); [apply Hφ | done]. Qed.
End views.

Lemma signal_other f wk t : wk ≠ Some t → signal f wk t = f t.
Proof. destruct wk as [t'|]; simpl; [| done]. intros Hne. apply upd_ne. congruence. Qed.

(** ** The global invariant *)

Section invariant.
Context (P : Params).

(** The orders of a customer at [p] not queued yet; those of a customer
    that aborted never will be. *)
Definition cust_left (p : pc) : nat :=
  match p with
  | CustLoop i | CustFill i _ | CustLock i _ | CustCheck i _ | CustWait i _ | Aborted i =>
      ORDERS_PER_CUSTOMER P - i
  | CustPrint i _ _ => ORDERS_PER_CUSTOMER P - S i
  | _ => 0
  end.

Definition orders_left (f : tid → pc) : nat :=
  sum_list (map (λ c, cust_left (f (Cust c))) (customer_ids P)).

Definition cust_pc_ok (p : pc) : Prop :=
  match p with
  | CustLoop i => i ≤ ORDERS_PER_CUSTOMER P
  | CustFill i _ | CustLock i _ | CustCheck i _ | CustWait i _ | CustPrint i _ _
  | Aborted i => i < ORDERS_PER_CUSTOMER P
  | Done => True
  | _ => False
  end.

Definition cook_pc_ok (p : pc) : Prop :=
  match p with
  | CookLock _ | CookCheck _ | CookWait _ | CookGot _ _ | Done => True
  | _ => False
  end.

(** Every thread runs the code of its role; the ids [main] never started
    are [Done]; [main] has joined a prefix of the workers, all of them
    terminated. *)
Definition roles_ok (f : tid → pc) : Prop :=
  (∀ c, c ∈ customer_ids P → cust_pc_ok (f (Cust c)))
  ∧ (∀ c, c ∉ customer_ids P → f (Cust c) = Done)
  ∧ (∀ k, k ∈ cook_ids P → cook_pc_ok (f (Cook k)))
  ∧ (∀ k, k ∉ cook_ids P → f (Cook k) = Done)
  ∧ match f MainT with
    | MainJoin pend => ∃ pre, worker_tids P = pre ++ pend ∧ ∀ t, t ∈ pre → terminated (f t) = true
    | Done => ∀ t, t ∈ worker_tids P → terminated (f t) = true
    | _ => False
    end.

(** The cells owned by threads are allocated, outside the queue, and owned
    by one thread each. *)
Definition owned_ok (h : heap) (ls : list loc) (f : tid → pc) : Prop :=
  ∀ t l, owned (f t) = Some l →
    is_Some (h !! l) ∧ (l ∉ ls) ∧ (∀ t', t' ≠ t → owned (f t') ≠ Some l).

(** The ghost logs: what was handed out followed by what is queued is what
    was queued, and the numbers handed out are [1 .. orders_handled]. *)
Definition logs_ok (m : Mem) (ls : list loc) (lin lout : list Ticket) : Prop :=
  lout ++ tickets (hp m) ls = lin
  ∧ t_number <$> lout = seqZ 1 (orders_handled (bcb m)).

Record Inv (w : World) : Prop := {
  inv_queue : ∃ ls, rep (mem w) ls ∧ owned_ok (hp (mem w)) ls (pcs w)
                    ∧ logs_ok (mem w) ls (log_in w) (log_out w);
  inv_consts : max_size (bcb (mem w)) = BENSCHILLIBOWL_SIZE P
               ∧ expected_num_orders (bcb (mem w)) = EXPECTED_NUM_ORDERS P;
  inv_lock : ∀ t, owner w = Some t ↔ holds_lock (pcs w t) = true;
  inv_roles : roles_ok (pcs w);
  inv_count : (orders_handled (bcb (mem w)) + current_size (bcb (mem w))
               + Z.of_nat (orders_left (pcs w)) = EXPECTED_NUM_ORDERS P)%Z;
  inv_drained : ∀ k, k ∈ cook_ids P → pcs w (Cook k) = Done →
                current_size (bcb (mem w)) = 0%Z
                ∧ orders_handled (bcb (mem w)) = EXPECTED_NUM_ORDERS P;
}.

End invariant.

(** ** Lemmas on the thread table *)

Section table.
Context (P : Params).

Lemma customer_ids_NoDup : NoDup (customer_ids P).
Proof. apply NoDup_seq. Qed.

Lemma woken_cust_left p : cust_left P (woken p) = cust_left P p.
Proof. destruct p; done. Qed.

Lemma orders_left_upd_cust f c p :
  c ∈ customer_ids P →
  orders_left P (upd f (Cust c) p) + cust_left P (f (Cust c)) = orders_left P f + cust_left P p.
Proof.
  intros Hc. unfold orders_left.
  rewrite (sum_list_map_ext _ (λ x, if decide (x = c) then cust_left P p else cust_left P (f (Cust x)))).
  - apply (sum_list_map_upd (λ x, cust_left P (f (Cust x)))); [apply customer_ids_NoDup | done].
  - intros x _. unfold upd. do 2 case_decide; congruence.
Qed.

Lemma orders_left_ext f g :
  (∀ c, cust_left P (g (Cust c)) = cust_left P (f (Cust c))) → orders_left P g = orders_left P f.
Proof. intros H. unfold orders_left. apply sum_list_map_ext. intros c _. apply H. Qed.

Lemma orders_left_upd_other f t p :
  (∀ c, t ≠ Cust c) → orders_left P (upd f t p) = orders_left P f.
Proof. intros Ht. apply orders_left_ext. intros c. rewrite upd_ne; [done | apply not_eq_sym, Ht]. Qed.

Lemma orders_left_signal f wk : orders_left P (signal f wk) = orders_left P f.
Proof. apply orders_left_ext. intros c. apply signal_view, woken_cust_left. Qed.

Lemma orders_left_broadcast f : orders_left P (broadcast_get f) = orders_left P f.
Proof. apply orders_left_ext. intros c. apply broadcast_view, woken_cust_left. Qed.

Lemma orders_left_init :
  orders_left P (init_pcs P) = (NUM_CUSTOMERS P * ORDERS_PER_CUSTOMER P)%nat.
Proof.
  unfold orders_left. rewrite (sum_list_map_ext _ (λ _, ORDERS_PER_CUSTOMER P)).
  - rewrite sum_list_map_const. unfold customer_ids. rewrite length_seq. done.
  - intros c Hc. simpl. case_decide; [simpl; lia | done].
Qed.

End table.

(** ** The invariant holds initially *)

Lemma Inv_init P : (0 ≤ BENSCHILLIBOWL_SIZE P)%Z → Inv P (init P).
Proof.
  intros Hsize. split; simpl.
  - exists [].
    assert (Hrep : rep (mkMem (OpenRestaurant (BENSCHILLIBOWL_SIZE P) (EXPECTED_NUM_ORDERS P)) ∅) [])
      by (repeat split; simpl; done || lia).
    split; [done |]. split.
    + intros t l. destruct t; simpl; repeat case_decide; done.
    + split; done.
  - done.
  - intros t. split; [done |]. destruct t; simpl; repeat case_decide; done.
  - repeat split.
    + intros c Hc. simpl. case_decide; [simpl; lia | done].
    + intros c Hc. simpl. case_decide; done.
    + intros k Hk. simpl. case_decide; done.
    + intros k Hk. simpl. case_decide; done.
    + exists []. split; [done | set_solver].
  - rewrite orders_left_init. unfold EXPECTED_NUM_ORDERS. lia.
  - intros k Hk. simpl. case_decide; done.
Qed.

(** ** Frame lemmas for the parts of the invariant *)

(** [g] is [f] after some waiters were woken. *)
Definition wakes (f g : tid → pc) : Prop := ∀ t, g t = f t ∨ g t = woken (f t).

Lemma wakes_signal f wk : wakes f (signal f wk).
Proof.
  intros t. destruct wk as [t'|]; simpl; [| by left].
  unfold upd. case_decide; subst; [by right | by left].
Qed.

Lemma wakes_broadcast f : wakes f (broadcast_get f).
Proof. intros t. unfold broadcast_get. destruct (on_can_get (f t)); [by right | by left]. Qed.

Lemma wakes_view {B} (φ : pc → B) f g :
  (∀ p, φ (woken p) = φ p) → wakes f g → ∀ t, φ (g t) = φ (f t).
Proof. intros Hφ Hw t. destruct (Hw t) as [-> | ->]; [done | apply Hφ]. Qed.

Lemma signal_ok_other P waiting f wk t :
  signal_ok P waiting f wk = true → waiting (f t) = false → wk ≠ Some t.
Proof. destruct wk as [t'|]; simpl; [| done]. intros H1 H2 [= ->]. congruence. Qed.

Lemma wakes_refl f : wakes f f.
Proof. intros t. by left. Qed.

Lemma wakes_done f g t : wakes f g → g t = Done ↔ f t = Done.
Proof. intros Hw. destruct (Hw t) as [-> | ->]; [done |]. destruct (f t); done. Qed.

Section frames.
Context (P : Params).
Implicit Types (f g : tid → pc) (h : heap) (ls : list loc).

Lemma owned_ok_upd h ls f t p :
  owned_ok h ls f →
  (∀ l, owned p = Some l →
     is_Some (h !! l) ∧ (l ∉ ls) ∧ (∀ t', t' ≠ t → owned (f t') ≠ Some l)) →
  owned_ok h ls (upd f t p).
Proof.
  intros Hok Hp t0 l Hl. destruct (decide (t0 = t)) as [->|Hne].
  - rewrite upd_eq in Hl. destruct (Hp l Hl) as (Ha & Hn & Hd). split_and!; [done | done |].
    intros t' Ht'. rewrite upd_ne by done. apply Hd. done.
  - rewrite upd_ne in Hl by done. destruct (Hok t0 l Hl) as (Ha & Hn & Hd).
    split_and!; [done | done |]. intros t' Ht'. destruct (decide (t' = t)) as [->|Hne'].
    + rewrite upd_eq. intros Hpl. destruct (Hp l Hpl) as (_ & _ & Hd'). apply (Hd' t0); done.
    + rewrite upd_ne by done. apply Hd. done.
Qed.

Lemma owned_ok_mono h h' ls ls' f :
  owned_ok h ls f →
  (∀ t l, owned (f t) = Some l → is_Some (h' !! l) ∧ l ∉ ls') →
  owned_ok h' ls' f.
Proof.
  intros Hok Hnew t l Hl. destruct (Hnew t l Hl). destruct (Hok t l Hl) as (_ & _ & Hd).
  split_and!; done.
Qed.

Lemma owned_ok_wakes h ls f g : owned_ok h ls f → wakes f g → owned_ok h ls g.
Proof.
  intros Hok Hw t l Hl. rewrite (wakes_view owned f g woken_owned Hw) in Hl.
  destruct (Hok t l Hl) as (Ha & Hn & Hd). split_and!; [done | done |].
  intros t' Ht'. rewrite (wakes_view owned f g woken_owned Hw). apply Hd. done.
Qed.

Lemma woken_cust_pc_ok p : cust_pc_ok P (woken p) ↔ cust_pc_ok P p.
Proof. destruct p; done. Qed.
Lemma woken_cook_pc_ok p : cook_pc_ok (woken p) ↔ cook_pc_ok p.
Proof. destruct p; done. Qed.

Lemma roles_ok_wakes f g : roles_ok P f → wakes f g → roles_ok P g.
Proof.
  intros (Hc & Hc' & Hk & Hk' & Hm) Hw. split_and!.
  - intros c Hin. destruct (Hw (Cust c)) as [-> | ->]; [| apply woken_cust_pc_ok]; auto.
  - intros c Hin. apply (wakes_done f g); auto.
  - intros k Hin. destruct (Hw (Cook k)) as [-> | ->]; [| apply woken_cook_pc_ok]; auto.
  - intros k Hin. apply (wakes_done f g); auto.
  - pose proof (wakes_view terminated f g woken_terminated Hw) as Ht.
    destruct (Hw MainT) as [-> | ->]; destruct (f MainT); simpl; try done;
      setoid_rewrite Ht; done.
Qed.

Lemma roles_ok_upd f t p :
  roles_ok P f →
  (∀ c, t = Cust c → c ∈ customer_ids P ∧ cust_pc_ok P p) →
  (∀ k, t = Cook k → k ∈ cook_ids P ∧ cook_pc_ok p) →
  t ≠ MainT → (terminated (f t) = true → terminated p = true) →
  roles_ok P (upd f t p).
Proof.
  intros (Hc & Hc' & Hk & Hk' & Hm) HC HK HM HT.
  assert (Hterm : ∀ t', terminated (f t') = true → terminated (upd f t p t') = true).
  { intros t'. unfold upd. case_decide; subst; auto. }
  split_and!.
  - intros c Hin. destruct (decide (Cust c = t)) as [<-|Hne].
    + rewrite upd_eq. apply (HC c); done.
    + rewrite upd_ne by congruence. auto.
  - intros c Hin. destruct (decide (Cust c = t)) as [<-|Hne].
    + destruct (HC c eq_refl); done.
    + rewrite upd_ne by congruence. auto.
  - intros k Hin. destruct (decide (Cook k = t)) as [<-|Hne].
    + rewrite upd_eq. apply (HK k); done.
    + rewrite upd_ne by congruence. auto.
  - intros k Hin. destruct (decide (Cook k = t)) as [<-|Hne].
    + destruct (HK k eq_refl); done.
    + rewrite upd_ne by congruence. auto.
  - rewrite upd_ne by congruence. destruct (f MainT); try done.
    + destruct Hm as (pre & Hpre & Hpt). exists pre. split; [done |].
      intros t' Ht'. apply Hterm, Hpt. done.
    + intros t' Ht'. apply Hterm, Hm. done.
Qed.

(** A thread that is not [Done] is one [main] started, with its role's
    code. *)
Lemma roles_cust f c : roles_ok P f → f (Cust c) ≠ Done → c ∈ customer_ids P ∧ cust_pc_ok P (f (Cust c)).
Proof.
  intros (Hc & Hc' & _) Hne. destruct (decide (c ∈ customer_ids P)); [auto |].
  exfalso. apply Hne. auto.
Qed.

Lemma roles_cook f k : roles_ok P f → f (Cook k) ≠ Done → k ∈ cook_ids P ∧ cook_pc_ok (f (Cook k)).
Proof.
  intros (_ & _ & Hk & Hk' & _) Hne. destruct (decide (k ∈ cook_ids P)); [auto |].
  exfalso. apply Hne. auto.
Qed.

End frames.

(** ** Preservation, step by step *)

Section preservation.
Context (P : Params).

Lemma orders_left_step_eq f t p :
  (∀ c, t = Cust c → c ∈ customer_ids P) →
  (∀ c, t = Cust c → cust_left P p = cust_left P (f t)) →
  orders_left P (upd f t p) = orders_left P f.
Proof.
  intros Hin Heq. destruct t as [c| |]; [| rewrite orders_left_upd_other by done; lia..].
  pose proof (orders_left_upd_cust P f c p (Hin c eq_refl)). specialize (Heq c eq_refl). lia.
Qed.

(** A step of [t] that does not hold the mutex: it moves [t]'s program
    counter and may change heap cells outside the queue and outside every
    other thread's cell (its own new cell, if it owns one, stays outside
    both). *)
Lemma Inv_local w t p h' o' :
  Inv P w →
  (∀ t', o' = Some t' ↔ holds_lock (upd (pcs w) t p t') = true) →
  (∀ ls, rep (mem w) ls → ∀ l, l ∈ ls → h' !! l = hp (mem w) !! l) →
  (∀ t' l, t' ≠ t → owned (pcs w t') = Some l → h' !! l = hp (mem w) !! l) →
  (∀ l, owned p = Some l →
     is_Some (h' !! l) ∧ (∀ t', t' ≠ t → owned (pcs w t') ≠ Some l)
     ∧ (∀ ls, rep (mem w) ls → l ∉ ls)) →
  roles_ok P (upd (pcs w) t p) →
  (∀ c, t = Cust c → c ∈ customer_ids P) →
  (∀ c, t = Cust c → cust_left P p = cust_left P (pcs w t)) →
  (∀ k, t = Cook k → p ≠ Done) →
  Inv P (mkWorld (mkMem (bcb (mem w)) h') o' (upd (pcs w) t p) (log_in w) (log_out w)).
Proof.
  intros [(ls & Hrep & Hown & Hlogs) Hconst Hlock Hroles Hcount Hdr]
    Hlock' Hfq Hfo Hnew Hroles' Hin Hleft Hdone.
  split; simpl; [| done | exact Hlock' | done | | ].
  - exists ls. split_and!.
    + apply rep_frame; [done |]. apply Hfq. done.
    + intros t0 l Hl. destruct (decide (t0 = t)) as [->|Hne].
      * rewrite upd_eq in Hl. destruct (Hnew l Hl) as (Ha & Hd & Hq).
        split_and!; [done | apply Hq; done |]. intros t' Ht'. rewrite upd_ne by done. auto.
      * rewrite upd_ne in Hl by done. destruct (Hown t0 l Hl) as (Ha & Hq & Hd).
        rewrite (Hfo t0 l Hne Hl). split_and!; [done | done |].
        intros t' Ht'. destruct (decide (t' = t)) as [->|Hne'].
        -- rewrite upd_eq. intros Hpl. destruct (Hnew l Hpl) as (_ & Hd' & _). apply (Hd' t0); done.
        -- rewrite upd_ne by done. apply Hd. done.
    + destruct Hlogs as [Hl Hn]. split; [| done]. rewrite <- Hl. f_equal.
      apply tickets_ext. intros l Hl'. simpl. rewrite (Hfq ls Hrep l Hl'). done.
  - rewrite (orders_left_step_eq (pcs w) t p Hin Hleft). done.
  - intros k Hk. destruct (decide (Cook k = t)) as [<-|Hne].
    + rewrite upd_eq. intros Hp. destruct (Hdone k eq_refl Hp).
    + rewrite upd_ne by done. apply Hdr, Hk.
Qed.

(** The mutex owner after a step of [t] that keeps, takes or gives up the
    mutex. *)
Lemma lock_keep (o : option tid) f t p :
  (∀ t', o = Some t' ↔ holds_lock (f t') = true) → holds_lock p = holds_lock (f t) →
  ∀ t', o = Some t' ↔ holds_lock (upd f t p t') = true.
Proof.
  intros Hl Hp t'. unfold upd. case_decide; subst; [rewrite Hp |]; apply Hl.
Qed.

Lemma lock_take f t p :
  (∀ t', None = Some t' ↔ holds_lock (f t') = true) → holds_lock p = true →
  ∀ t', Some t = Some t' ↔ holds_lock (upd f t p t') = true.
Proof.
  intros Hl Hp t'. unfold upd. case_decide as Heq; subst; [done |].
  split; [intros [= ->]; done | intros Hh; apply Hl in Hh; done].
Qed.

Lemma lock_give f g t p :
  (∀ t', Some t = Some t' ↔ holds_lock (f t') = true) → wakes f g → holds_lock p = false →
  ∀ t', None = Some t' ↔ holds_lock (upd g t p t') = true.
Proof.
  intros Hl Hw Hp t'. unfold upd. case_decide as Heq; subst; [rewrite Hp; done |].
  rewrite (wakes_view holds_lock f g woken_holds_lock Hw). split; [done |].
  intros Hh. apply Hl in Hh. congruence.
Qed.

(** A step that touches no memory and keeps [t]'s cell, with any new owner
    of the mutex. *)
Lemma Inv_pc_owner w t p o' :
  Inv P w →
  (∀ t', o' = Some t' ↔ holds_lock (upd (pcs w) t p t') = true) →
  owned p = owned (pcs w t) →
  roles_ok P (upd (pcs w) t p) →
  (∀ c, t = Cust c → c ∈ customer_ids P) →
  (∀ c, t = Cust c → cust_left P p = cust_left P (pcs w t)) →
  (∀ k, t = Cook k → p ≠ Done) →
  Inv P (mkWorld (mem w) o' (upd (pcs w) t p) (log_in w) (log_out w)).
Proof.
  intros Hinv Hlock' Hown Hroles Hin Hleft Hdone.
  pose proof (inv_queue P w Hinv) as (ls & Hrep & Hok & _).
  destruct w as [[b h] o f lin lout]. simpl in *.
  apply (Inv_local (mkWorld (mkMem b h) o f lin lout)); simpl; try done.
  intros l Hl. rewrite Hown in Hl. destruct (Hok t l Hl) as (Ha & Hq & Hd).
  split_and!; [done | done |]. intros ls' Hrep'. rewrite (rep_unique _ _ _ Hrep' Hrep). done.
Qed.

(** The special case of a step that touches neither memory nor mutex. *)
Lemma Inv_with_pc w t p :
  Inv P w →
  holds_lock (pcs w t) = false → holds_lock p = false →
  owned p = owned (pcs w t) →
  roles_ok P (upd (pcs w) t p) →
  (∀ c, t = Cust c → c ∈ customer_ids P) →
  (∀ c, t = Cust c → cust_left P p = cust_left P (pcs w t)) →
  (∀ k, t = Cook k → p ≠ Done) →
  Inv P (with_pc w t p).
Proof.
  intros Hinv Hl1 Hl2. apply Inv_pc_owner; [done |].
  apply lock_keep; [apply (inv_lock P w Hinv) | congruence].
Qed.

End preservation.

Section local_steps.
Context (P : Params).

Lemma roles_cust_step f c p :
  roles_ok P f → c ∈ customer_ids P → cust_pc_ok P p →
  (terminated (f (Cust c)) = true → terminated p = true) → roles_ok P (upd f (Cust c) p).
Proof. intros. apply roles_ok_upd; [done | intros ? [= <-]; done | done | done | done]. Qed.

Lemma roles_cook_step f k p :
  roles_ok P f → k ∈ cook_ids P → cook_pc_ok p →
  (terminated (f (Cook k)) = true → terminated p = true) → roles_ok P (upd f (Cook k) p).
Proof. intros. apply roles_ok_upd; [done | done | intros ? [= <-]; done | done | done]. Qed.

(** The side conditions on the customer's id and its orders left. *)
Ltac fin_ids Hpc :=
  intros ? [= <-]; rewrite ?Hpc; simpl;
  first [done | lia].

Ltac roles_tac Hpc :=
  first [apply roles_cust_step | apply roles_cook_step]; rewrite ?Hpc; simpl; try done; lia.

(** The context of a customer step: the customer was started. *)
Ltac cust_ctx Hinv Hpc :=
  let Hr := fresh "Hroles" in
  pose proof (inv_roles P _ Hinv) as Hr;
  match type of Hpc with
  | pcs ?w (Cust ?c) = ?p =>
      let Hin := fresh "Hin" in let Hok := fresh "Hok" in
      destruct (roles_cust P (pcs w) c Hr) as [Hin Hok]; [rewrite Hpc; done |];
      rewrite Hpc in Hok; simpl in Hok
  | pcs ?w (Cook ?k) = ?p =>
      let Hin := fresh "Hin" in let Hok := fresh "Hok" in
      destruct (roles_cook P (pcs w) k Hr) as [Hin Hok]; [rewrite Hpc; done |]
  end.

Lemma Inv_cust_done w c i :
  Inv P w → pcs w (Cust c) = CustLoop i → ORDERS_PER_CUSTOMER P ≤ i →
  Inv P (with_pc w (Cust c) Done).
Proof.
  intros Hinv Hpc Hi. cust_ctx Hinv Hpc.
  apply Inv_with_pc; rewrite ?Hpc; try done; try fin_ids Hpc.
  - roles_tac Hpc.
Qed.

Lemma Inv_cust_abort w c i :
  Inv P w → pcs w (Cust c) = CustLoop i → i < ORDERS_PER_CUSTOMER P →
  Inv P (with_pc w (Cust c) (Aborted i)).
Proof.
  intros Hinv Hpc Hi. cust_ctx Hinv Hpc.
  apply Inv_with_pc; rewrite ?Hpc; try done; try fin_ids Hpc.
  - roles_tac Hpc.
Qed.

Lemma Inv_cust_malloc w c i l h :
  Inv P w → pcs w (Cust c) = CustLoop i → i < ORDERS_PER_CUSTOMER P →
  malloc (hp (mem w)) l = Some h →
  Inv P (mkWorld (mkMem (bcb (mem w)) h) (owner w) (upd (pcs w) (Cust c) (CustFill i l))
                 (log_in w) (log_out w)).
Proof.
  intros Hinv Hpc Hi Hm. cust_ctx Hinv Hpc.
  unfold malloc in Hm. destruct (hp (mem w) !! l) eqn:Hl; [done |]. injection Hm as <-.
  pose proof (inv_queue P _ Hinv) as (ls & Hrep & Hown & _).
  assert (Hfresh : ∀ ls', rep (mem w) ls' → l ∉ ls').
  { intros ls' Hr Hin'. destruct (rep_cells _ _ _ Hr Hin') as [? Hs]. congruence. }
  apply Inv_local; rewrite ?Hpc; try done; try fin_ids Hpc.
  - apply lock_keep; [apply (inv_lock P w Hinv) | rewrite ?Hpc; done].
  - intros ls' Hr l' Hl'. rewrite lookup_insert_ne; [done |]. intros ->. apply (Hfresh ls'); done.
  - intros t' l' _ Ho. destruct (Hown t' l' Ho) as ([? Hs] & _). rewrite lookup_insert_ne; [done |].
    intros ->. congruence.
  - intros l' [= <-]. split_and!; [rewrite lookup_insert_eq; eauto | | done].
    intros t' _ Ho. destruct (Hown t' l Ho) as ([? Hs] & _). congruence.
  - roles_tac Hpc.
Qed.

Lemma fill_order_frame h l item c h' :
  fill_order h l item c = Some h' → is_Some (h' !! l) ∧ ∀ l', l' ≠ l → h' !! l' = h !! l'.
Proof.
  unfold fill_order, store. intros Hf. inv_bind. simplify_eq. split.
  - rewrite lookup_insert_eq. eauto.
  - intros l' Hne. rewrite !lookup_insert_ne by done. done.
Qed.

Lemma Inv_cust_fill w c i l item h :
  Inv P w → pcs w (Cust c) = CustFill i l → fill_order (hp (mem w)) l item c = Some h →
  Inv P (mkWorld (mkMem (bcb (mem w)) h) (owner w) (upd (pcs w) (Cust c) (CustLock i l))
                 (log_in w) (log_out w)).
Proof.
  intros Hinv Hpc Hf. cust_ctx Hinv Hpc.
  destruct (fill_order_frame _ _ _ _ _ Hf) as [Ha Hfr].
  pose proof (inv_queue P _ Hinv) as (ls & Hrep & Hown & _).
  destruct (Hown (Cust c) l) as (_ & Hq & Hd); [rewrite Hpc; done |].
  apply Inv_local; rewrite ?Hpc; try done; try fin_ids Hpc.
  - apply lock_keep; [apply (inv_lock P w Hinv) | rewrite ?Hpc; done].
  - intros ls' Hr l' Hl'. rewrite (rep_unique _ _ _ Hr Hrep) in Hl'. apply Hfr. set_solver.
  - intros t' l' Hne Ho. apply Hfr. intros ->. apply (Hd t'); done.
  - intros l' [= <-]. split_and!; [done | done |].
    intros ls' Hr. rewrite (rep_unique _ _ _ Hr Hrep). done.
  - roles_tac Hpc.
Qed.

Lemma Inv_cust_wake w c i l :
  Inv P w → pcs w (Cust c) = CustWait i l → Inv P (with_pc w (Cust c) (CustLock i l)).
Proof.
  intros Hinv Hpc. cust_ctx Hinv Hpc.
  apply Inv_with_pc; rewrite ?Hpc; try done; try fin_ids Hpc.
  - roles_tac Hpc.
Qed.

Lemma Inv_cust_print w c i l n :
  Inv P w → pcs w (Cust c) = CustPrint i l n → Inv P (with_pc w (Cust c) (CustLoop (S i))).
Proof.
  intros Hinv Hpc. cust_ctx Hinv Hpc.
  apply Inv_with_pc; rewrite ?Hpc; try done; try fin_ids Hpc.
  - roles_tac Hpc.
Qed.

Lemma Inv_cook_wake w k j :
  Inv P w → pcs w (Cook k) = CookWait j → Inv P (with_pc w (Cook k) (CookLock j)).
Proof.
  intros Hinv Hpc. cust_ctx Hinv Hpc.
  apply Inv_with_pc; rewrite ?Hpc; try done; try fin_ids Hpc.
  roles_tac Hpc.
Qed.

Lemma Inv_cook_free w k j l h :
  Inv P w → pcs w (Cook k) = CookGot j l → free (hp (mem w)) l = Some h →
  Inv P (mkWorld (mkMem (bcb (mem w)) h) (owner w) (upd (pcs w) (Cook k) (CookLock (S j)))
                 (log_in w) (log_out w)).
Proof.
  intros Hinv Hpc Hf. cust_ctx Hinv Hpc.
  unfold free in Hf. inv_bind. simplify_eq.
  pose proof (inv_queue P _ Hinv) as (ls & Hrep & Hown & _).
  destruct (Hown (Cook k) l) as (_ & Hq & Hd); [rewrite Hpc; done |].
  apply Inv_local; rewrite ?Hpc; try done; try fin_ids Hpc.
  - apply lock_keep; [apply (inv_lock P w Hinv) | rewrite ?Hpc; done].
  - intros ls' Hr l' Hl'. rewrite (rep_unique _ _ _ Hr Hrep) in Hl'.
    rewrite lookup_delete_ne; [done |]. intros ->. done.
  - intros t' l' Hne Ho. rewrite lookup_delete_ne; [done |]. intros ->. apply (Hd t'); done.
  - roles_tac Hpc.
Qed.

(** ** Taking the mutex, and waiting on a condition variable *)

Lemma owner_of_holder w t :
  Inv P w → holds_lock (pcs w t) = true → ∀ t', Some t = Some t' ↔ holds_lock (pcs w t') = true.
Proof.
  intros Hinv Ht. pose proof (inv_lock P w Hinv) as Hl.
  assert (Ho : owner w = Some t) by (apply Hl; done). rewrite <- Ho. apply Hl.
Qed.

Lemma Inv_cust_lock w c i l :
  Inv P w → pcs w (Cust c) = CustLock i l → owner w = None →
  Inv P (mkWorld (mem w) (Some (Cust c)) (upd (pcs w) (Cust c) (CustCheck i l))
                 (log_in w) (log_out w)).
Proof.
  intros Hinv Hpc Ho. cust_ctx Hinv Hpc.
  apply Inv_pc_owner; rewrite ?Hpc; try done; try fin_ids Hpc.
  - apply lock_take; [rewrite <- Ho; apply (inv_lock P w Hinv) | done].
  - roles_tac Hpc.
Qed.

Lemma Inv_cook_lock w k j :
  Inv P w → pcs w (Cook k) = CookLock j → owner w = None →
  Inv P (mkWorld (mem w) (Some (Cook k)) (upd (pcs w) (Cook k) (CookCheck j))
                 (log_in w) (log_out w)).
Proof.
  intros Hinv Hpc Ho. cust_ctx Hinv Hpc.
  apply Inv_pc_owner; rewrite ?Hpc; try done; try fin_ids Hpc.
  - apply lock_take; [rewrite <- Ho; apply (inv_lock P w Hinv) | done].
  - roles_tac Hpc.
Qed.

Lemma Inv_cust_wait w c i l :
  Inv P w → pcs w (Cust c) = CustCheck i l →
  Inv P (mkWorld (mem w) None (upd (pcs w) (Cust c) (CustWait i l)) (log_in w) (log_out w)).
Proof.
  intros Hinv Hpc. cust_ctx Hinv Hpc.
  apply Inv_pc_owner; rewrite ?Hpc; try done; try fin_ids Hpc.
  - apply (lock_give (pcs w) (pcs w) (Cust c)); [| apply wakes_refl | done].
    apply owner_of_holder; [done | rewrite Hpc; done].
  - roles_tac Hpc.
Qed.

Lemma Inv_cook_wait w k j :
  Inv P w → pcs w (Cook k) = CookCheck j →
  Inv P (mkWorld (mem w) None (upd (pcs w) (Cook k) (CookWait j)) (log_in w) (log_out w)).
Proof.
  intros Hinv Hpc. cust_ctx Hinv Hpc.
  apply Inv_pc_owner; rewrite ?Hpc; try done; try fin_ids Hpc.
  - apply (lock_give (pcs w) (pcs w) (Cook k)); [| apply wakes_refl | done].
    apply owner_of_holder; [done | rewrite Hpc; done].
  - roles_tac Hpc.
Qed.

End local_steps.

(** ** Placing an order, handing one out, draining *)

Lemma cust_left_le P f c : c ∈ customer_ids P → cust_left P (f (Cust c)) ≤ orders_left P f.
Proof. intros Hc. pose proof (orders_left_upd_cust P f c Done Hc). simpl in *. lia. Qed.

Section monitor_steps.
Context (P : Params).

Lemma Inv_cust_enqueue w c i l n m' wk :
  Inv P w → pcs w (Cust c) = CustCheck i l → AddOrder (mem w) l = Ret (n, m') →
  signal_ok P on_can_get (pcs w) wk = true →
  Inv P (mkWorld m' None (upd (signal (pcs w) wk) (Cust c) (CustPrint i l n))
                 (log_in w ++ tickets (hp m') [l]) (log_out w)).
Proof.
  intros Hinv Hpc Hadd Hsig.
  pose proof (inv_roles P _ Hinv) as Hroles.
  destruct (roles_cust P (pcs w) c Hroles) as [Hin Hok]; [rewrite Hpc; done |].
  rewrite Hpc in Hok. simpl in Hok.
  pose proof (owner_of_holder P w (Cust c) Hinv ltac:(rewrite Hpc; done)) as Hown_t.
  destruct Hinv as [(ls & Hrep & Hown & Hlin & Hlout) [Hmax Hexp] _ _ Hcount Hdr].
  destruct (Hown (Cust c) l) as ([ol Hol] & Hq & Hd); [rewrite Hpc; done |].
  destruct (AddOrder_Ret _ _ _ _ _ _ Hrep Hol Hq Hadd)
    as (Hrep' & -> & Hsz & Hhd & Hmax' & Hexp' & _ & Hls & Hl & Hfr).
  assert (Hself : wk ≠ Some (Cust c)) by (apply (signal_ok_other P on_can_get (pcs w)); rewrite ?Hpc; done).
  assert (Hleft : orders_left P (upd (signal (pcs w) wk) (Cust c) (CustPrint i l (next_order_number (bcb (mem w))))) + 1
                  = orders_left P (pcs w)).
  { pose proof (orders_left_upd_cust P (signal (pcs w) wk) c (CustPrint i l (next_order_number (bcb (mem w)))) Hin) as H.
    rewrite orders_left_signal, signal_other, Hpc in H by done. simpl in H. lia. }
  split; cbn [mem owner pcs log_in log_out].
  - exists (ls ++ [l]). split_and!; [done | | split].
    + apply (owned_ok_mono (hp (mem w)) _ ls).
      * apply owned_ok_upd; [apply (owned_ok_wakes _ _ (pcs w)); [done | apply wakes_signal] | done].
      * intros t l' Ho. destruct (decide (t = Cust c)) as [->|Hne]; [rewrite upd_eq in Ho; done |].
        rewrite upd_ne, (wakes_view owned _ _ woken_owned (wakes_signal _ _)) in Ho by done.
        destruct (Hown t l' Ho) as (Ha & Hq' & Hd').
        assert (l' ≠ l) by (intros ->; apply (Hd t Hne Ho)).
        rewrite Hfr by set_solver. split; [done | set_solver].
    + rewrite tickets_app, Hls, Hl, <- Hlin, <- app_assoc. done.
    + rewrite Hhd. done.
  - rewrite Hmax', Hexp'. done.
  - apply (lock_give (pcs w)); [done | apply wakes_signal | done].
  - apply roles_cust_step; [apply (roles_ok_wakes _ (pcs w)); [done | apply wakes_signal] | done | done |].
    rewrite signal_other, Hpc by done. done.
  - rewrite Hsz, Hhd. lia.
  - intros k Hk Hdone. rewrite upd_ne, (wakes_done (pcs w)) in Hdone by (done || apply wakes_signal).
    destruct (Hdr k Hk Hdone). pose proof (cust_left_le P (pcs w) c Hin) as Hcl.
    rewrite Hpc in Hcl. simpl in Hcl. lia.
Qed.

Lemma Inv_cook_dequeue w k j l m' wk :
  Inv P w → pcs w (Cook k) = CookCheck j → GetOrder (mem w) = Ret (Some l, m') →
  signal_ok P on_can_add (pcs w) wk = true →
  Inv P (mkWorld m' None (upd (signal (pcs w) wk) (Cook k) (CookGot j l))
                 (log_in w) (log_out w ++ tickets (hp m') [l])).
Proof.
  intros Hinv Hpc Hget Hsig.
  pose proof (inv_roles P _ Hinv) as Hroles.
  destruct (roles_cook P (pcs w) k Hroles) as [Hin _]; [rewrite Hpc; done |].
  pose proof (owner_of_holder P w (Cook k) Hinv ltac:(rewrite Hpc; done)) as Hown_t.
  destruct Hinv as [(ls & Hrep & Hown & Hlin & Hlout) [Hmax Hexp] _ _ Hcount Hdr].
  destruct (GetOrder_Ret_Some _ _ _ _ Hrep Hget)
    as (ls' & o & -> & Hrep' & Ho & Hh' & Hnum & Hsz & Hhd & Hmax' & Hexp').
  assert (Hnd : l ∉ ls').
  { destruct Hrep as [Hl _]. apply list_rep_NoDup in Hl. apply NoDup_cons in Hl as [? _]. done. }
  assert (Hself : wk ≠ Some (Cook k)) by (apply (signal_ok_other P on_can_add (pcs w)); rewrite ?Hpc; done).
  assert (Hl1 : tickets (hp m') [l] = [payload o]).
  { rewrite Hh'. rewrite (tickets_cons_lookup _ _ _ (with_next None o)) by apply lookup_insert_eq. done. }
  assert (Hls' : tickets (hp m') ls' = tickets (hp (mem w)) ls').
  { rewrite Hh'. apply tickets_insert_notin. done. }
  split; cbn [mem owner pcs log_in log_out].
  - exists ls'. split_and!; [done | | split].
    + apply owned_ok_upd.
      * apply (owned_ok_mono (hp (mem w)) _ (l :: ls')).
        -- apply (owned_ok_wakes _ _ (pcs w)); [done | apply wakes_signal].
        -- intros t l' Hl'. rewrite (wakes_view owned _ _ woken_owned (wakes_signal _ _)) in Hl'.
           destruct (Hown t l' Hl') as ([? Ha] & Hq & _). rewrite Hh'.
           rewrite lookup_insert_ne by set_solver. split; [eauto | set_solver].
      * intros l' [= <-]. split_and!.
        -- rewrite Hh', lookup_insert_eq. eauto.
        -- done.
        -- intros t' _ Ho'. rewrite (wakes_view owned _ _ woken_owned (wakes_signal _ _)) in Ho'.
           destruct (Hown t' l Ho') as (_ & Hq & _). set_solver.
    + rewrite Hls', Hl1, <- app_assoc. simpl.
      rewrite <- Hlin, (tickets_cons_lookup _ _ _ _ Ho). done.
    + destruct Hrep as (_ & _ & _ & Hh0 & _).
      rewrite Hl1, fmap_app, Hlout, Hhd. simpl in Hnum |- *. rewrite Hnum.
      rewrite seqZ_snoc by lia. do 2 f_equal. lia.
  - rewrite Hmax', Hexp'. done.
  - apply (lock_give (pcs w)); [done | apply wakes_signal | done].
  - apply roles_cook_step; [apply (roles_ok_wakes _ (pcs w)); [done | apply wakes_signal] | done | done |].
    rewrite signal_other, Hpc by done. done.
  - rewrite orders_left_upd_other, orders_left_signal by done. rewrite Hsz, Hhd.
    lia.
  - intros k' Hk Hdone. destruct (decide (Cook k' = Cook k)) as [[= ->]|Hne].
    + rewrite upd_eq in Hdone. done.
    + rewrite upd_ne, (wakes_done (pcs w)) in Hdone by (done || apply wakes_signal).
      destruct (Hdr k' Hk Hdone) as [Hz _]. destruct Hrep as (_ & Hlen & _). simpl in Hlen. lia.
Qed.

Lemma Inv_cook_drain w k j m' :
  Inv P w → pcs w (Cook k) = CookCheck j → GetOrder (mem w) = Ret (None, m') →
  Inv P (mkWorld m' None (upd (broadcast_get (pcs w)) (Cook k) Done) (log_in w) (log_out w)).
Proof.
  intros Hinv Hpc Hget.
  pose proof (inv_roles P _ Hinv) as Hroles.
  destruct (roles_cook P (pcs w) k Hroles) as [Hin _]; [rewrite Hpc; done |].
  pose proof (owner_of_holder P w (Cook k) Hinv ltac:(rewrite Hpc; done)) as Hown_t.
  destruct (GetOrder_Ret_None _ _ Hget) as (-> & Hz & Hexp_le).
  destruct Hinv as [(ls & Hrep & Hown & Hlogs) [Hmax Hexp] _ _ Hcount Hdr].
  split; cbn [mem owner pcs log_in log_out].
  - exists ls. split_and!; [done | | done].
    apply owned_ok_upd; [apply (owned_ok_wakes _ _ (pcs w)); [done | apply wakes_broadcast] | done].
  - done.
  - apply (lock_give (pcs w)); [done | apply wakes_broadcast | done].
  - apply roles_cook_step; [apply (roles_ok_wakes _ (pcs w)); [done | apply wakes_broadcast] | done | done | done].
  - rewrite orders_left_upd_other, orders_left_broadcast by done. done.
  - intros k' _ _. rewrite Hexp in Hexp_le. split; [done | lia].
Qed.

End monitor_steps.

(** ** [main]: joins and [CloseRestaurant] *)

Lemma worker_not_main P t : t ∈ worker_tids P → t ≠ MainT.
Proof.
  unfold worker_tids. intros Ht ->.
  apply elem_of_app in Ht as [Ht|Ht]; apply list_elem_of_fmap in Ht as (? & ? & _); done.
Qed.

Lemma roles_main_step P f p :
  roles_ok P f →
  match p with
  | MainJoin pend => ∃ pre, worker_tids P = pre ++ pend ∧ ∀ t, t ∈ pre → terminated (f t) = true
  | Done => ∀ t, t ∈ worker_tids P → terminated (f t) = true
  | _ => False
  end →
  roles_ok P (upd f MainT p).
Proof.
  intros (Hc & Hc' & Hk & Hk' & _) Hp.
  assert (Hterm : ∀ t, t ∈ worker_tids P → terminated (f t) = true → terminated (upd f MainT p t) = true).
  { intros t Ht. rewrite upd_ne; [done | apply (worker_not_main P); done]. }
  split_and!; try (intros; rewrite upd_ne by done; auto).
  rewrite upd_eq. destruct p; try done.
  - destruct Hp as (pre & Hpre & Hpt). exists pre. split; [done |].
    intros t Ht. apply Hterm; [rewrite Hpre; set_solver | auto].
  - intros t Ht. apply Hterm; auto.
Qed.

Section main_steps.
Context (P : Params).

Lemma Inv_main_join w t' rest :
  Inv P w → pcs w MainT = MainJoin (t' :: rest) → terminated (pcs w t') = true →
  Inv P (with_pc w MainT (MainJoin rest)).
Proof.
  intros Hinv Hpc Ht. pose proof (inv_roles P _ Hinv) as Hroles.
  apply Inv_with_pc; rewrite ?Hpc; try done.
  apply roles_main_step; [done |]. destruct Hroles as (_ & _ & _ & _ & Hm). rewrite Hpc in Hm.
  destruct Hm as (pre & Hpre & Hpt). exists (pre ++ [t']). split.
  - rewrite <- app_assoc. done.
  - intros t Hin. apply elem_of_app in Hin as [Hin | ->%list_elem_of_singleton]; auto.
Qed.

(** When [main] has joined every worker and there is at least one cook,
    the queue is drained: [CloseRestaurant]'s assertions hold and it frees
    nothing. *)
Lemma close_ok w :
  (1 ≤ NUM_COOKS P)%nat → Inv P w → pcs w MainT = MainJoin [] →
  CloseRestaurant (mem w) = Ret (hp (mem w)).
Proof.
  intros Hcooks Hinv Hpc.
  destruct Hinv as [(ls & Hrep & _) [_ Hexp] _ (_ & _ & Hk & _ & Hm) _ Hdr].
  rewrite Hpc in Hm. destruct Hm as (pre & Hpre & Hpt). rewrite app_nil_r in Hpre. subst pre.
  assert (H1 : 1 ∈ cook_ids P) by (unfold cook_ids; apply elem_of_seq; lia).
  assert (Hd : pcs w (Cook 1) = Done).
  { pose proof (Hk 1 H1) as Hok. pose proof (Hpt (Cook 1)) as Ht.
    assert (Hw : Cook 1 ∈ worker_tids P).
    { unfold worker_tids. apply elem_of_app. right. apply list_elem_of_fmap_2. done. }
    specialize (Ht Hw). destruct (pcs w (Cook 1)); done. }
  destruct (Hdr 1 H1 Hd) as [Hz Hh].
  pose proof Hrep as (_ & Hlen & _). destruct ls; simpl in Hlen; [| lia].
  apply CloseRestaurant_ok; [done | rewrite Hh, Hexp; done].
Qed.

Lemma Inv_main_close w :
  Inv P w → pcs w MainT = MainJoin [] →
  Inv P (mkWorld (mkMem (bcb (mem w)) (hp (mem w))) (owner w) (upd (pcs w) MainT Done)
                 (log_in w) (log_out w)).
Proof.
  intros Hinv Hpc. pose proof (inv_roles P _ Hinv) as Hroles.
  destruct w as [[b h] o f lin lout]. simpl in *.
  change (Inv P (with_pc (mkWorld (mkMem b h) o f lin lout) MainT Done)).
  apply Inv_with_pc; simpl; rewrite ?Hpc; try done.
  apply roles_main_step; [done |]. destruct Hroles as (_ & _ & _ & _ & Hm). rewrite Hpc in Hm.
  destruct Hm as (pre & Hpre & Hpt). rewrite app_nil_r in Hpre. subst pre. done.
Qed.

End main_steps.

(** ** No fault but one *)

Section faults.
Context (P : Params).

Lemma owned_alloc w t l :
  Inv P w → owned (pcs w t) = Some l →
  is_Some (hp (mem w) !! l) ∧ ∃ ls, rep (mem w) ls ∧ l ∉ ls.
Proof.
  intros Hinv Ho. destruct (inv_queue P w Hinv) as (ls & Hrep & Hown & _).
  destruct (Hown t l Ho) as (Ha & Hq & _). eauto.
Qed.

Lemma fill_order_some h l item c : is_Some (h !! l) → is_Some (fill_order h l item c).
Proof.
  intros [o Ho]. unfold fill_order. rewrite (store_lookup _ _ _ _ Ho). simpl.
  rewrite (store_lookup _ _ _ (with_item item o)) by apply lookup_insert_eq. simpl.
  rewrite (store_lookup _ _ _ (with_customer (Z.of_nat c) (with_item item o))) by apply lookup_insert_eq.
  eauto.
Qed.

Lemma AddOrder_no_crash w c i l e :
  Inv P w → pcs w (Cust c) = CustCheck i l → AddOrder (mem w) l ≠ Crash e.
Proof.
  intros Hinv Hpc Hc. destruct (owned_alloc w (Cust c) l Hinv) as ([o Ho] & ls & Hrep & Hq);
    [rewrite Hpc; done |].
  apply (AddOrder_safe _ _ _ _ e Hrep Ho Hq Hc).
Qed.

Lemma GetOrder_no_crash w e : Inv P w → GetOrder (mem w) ≠ Crash e.
Proof.
  intros Hinv Hc. destruct (inv_queue P w Hinv) as (ls & Hrep & _).
  apply (GetOrder_safe _ _ e Hrep Hc).
Qed.

Lemma pick_some r :
  (0 <=? r)%Z && (r <=? RAND_MAX)%Z = true → ∃ item, PickRandomMenuItem r = Some item.
Proof.
  intros Hr. apply andb_true_iff in Hr as [H1 H2]. apply Z.leb_le in H1, H2.
  destruct (PickRandomMenuItem_some r) as (item & Hi & _); [lia | eauto].
Qed.

End faults.

(** ** Every step keeps the invariant *)

(** The invariant [Inv] holds after every step from a world where it
    holds, and the only step that can fault is a customer's [printf] of
    [order->menu_item] after [AddOrder] returned (main.c, lines 43-44),
    when the order has already been freed by a cook. *)
Theorem step_Inv P w t ch c' :
  (1 ≤ NUM_COOKS P)%nat → Inv P w → step P w t ch = Some c' →
  match c' with
  | Running w' => Inv P w'
  | Faulted t' p e => t' = t ∧ e = BadPointer ∧ ∃ i l n, p = CustPrint i l n
  end.
Proof.
  intros Hcooks Hinv Hs. unfold step in Hs.
  destruct t as [c|k|]; destruct (pcs w _) eqn:Hpc; destruct ch; try discriminate;
    try (destruct pending as [|? ?]; discriminate).
  - (* CustLoop, loop exit *)
    destruct (Nat.ltb_spec i (ORDERS_PER_CUSTOMER P)); [done |]. injection Hs as <-.
    apply (Inv_cust_done P w c i); done.
  - (* CustLoop, malloc *)
    destruct (Nat.ltb_spec i (ORDERS_PER_CUSTOMER P)); [| done]. destruct r as [l|].
    + destruct (malloc (hp (mem w)) l) as [h|] eqn:Hm; simpl in Hs; [| done].
      injection Hs as <-. apply (Inv_cust_malloc P w c i l h); done.
    + injection Hs as <-. apply (Inv_cust_abort P w c i); done.
  - (* CustFill *)
    destruct ((0 <=? r)%Z && (r <=? RAND_MAX)%Z) eqn:Hr; [| done].
    destruct (pick_some r Hr) as [item Hitem]. rewrite Hitem in Hs.
    destruct (owned_alloc P w (Cust c) l Hinv) as [Ha _]; [rewrite Hpc; done |].
    destruct (fill_order_some (hp (mem w)) l item c Ha) as [h Hf]. rewrite Hf in Hs.
    injection Hs as <-. apply (Inv_cust_fill P w c i l item h); done.
  - (* CustLock *)
    unfold acquire in Hs. destruct (owner w) eqn:Ho; [done |]. injection Hs as <-.
    apply Inv_cust_lock; done.
  - (* CustCheck *)
    destruct (AddOrder (mem w) l) as [|[n m']|e] eqn:Hadd.
    + case_bool_decide; [| done]. injection Hs as <-. apply Inv_cust_wait; done.
    + destruct (signal_ok P on_can_get (pcs w) w0) eqn:Hsig; [| done]. injection Hs as <-.
      apply Inv_cust_enqueue; done.
    + destruct (AddOrder_no_crash P w c i l e Hinv Hpc Hadd).
  - (* CustWait, spurious wake-up *)
    injection Hs as <-. apply Inv_cust_wake; done.
  - (* CustPrint *)
    destruct (hp (mem w) !! l); injection Hs as <-; [apply (Inv_cust_print P w c i l n); done |].
    split_and!; eauto.
  - (* CookLock *)
    unfold acquire in Hs. destruct (owner w) eqn:Ho; [done |]. injection Hs as <-.
    apply Inv_cook_lock; done.
  - (* CookCheck *)
    destruct (GetOrder (mem w)) as [|[[l|] m']|e] eqn:Hget.
    + case_bool_decide; [| done]. injection Hs as <-. apply Inv_cook_wait; done.
    + destruct (signal_ok P on_can_add (pcs w) w0) eqn:Hsig; [| done]. injection Hs as <-.
      apply Inv_cook_dequeue; done.
    + case_bool_decide; [| done]. injection Hs as <-. apply (Inv_cook_drain P w k k0 m'); done.
    + destruct (GetOrder_no_crash P w e Hinv Hget).
  - (* CookWait, spurious wake-up *)
    injection Hs as <-. apply Inv_cook_wake; done.
  - (* CookGot *)
    destruct (owned_alloc P w (Cook k) l Hinv) as [[o Ho] _]; [rewrite Hpc; done |].
    rewrite Ho in Hs. unfold free in Hs. rewrite Ho in Hs. simpl in Hs. injection Hs as <-.
    apply (Inv_cook_free P w k k0 l); [done | done |]. unfold free. rewrite Ho. done.
  - (* MainJoin *)
    destruct pending as [|t' rest].
    + destruct (owner w) eqn:Ho; [done |].
      rewrite (close_ok P w Hcooks Hinv Hpc) in Hs. injection Hs as <-.
      rewrite <- Ho. apply Inv_main_close; done.
    + destruct (pcs w t') eqn:Ht; try done; injection Hs as <-;
        apply (Inv_main_join P w t' rest); rewrite ?Ht; done.
Qed.

(** A step moves the program counter of the thread that takes it, and can
    only wake waiters elsewhere: no thread changes another's code. *)
Lemma step_wakes P w t ch w' :
  step P w t ch = Some (Running w') → ∃ g p, wakes (pcs w) g ∧ pcs w' = upd g t p.
Proof.
  intros Hs. unfold step in Hs.
  destruct t as [c|k|]; destruct (pcs w _), ch; try discriminate;
    unfold acquire, with_pc in *; repeat case_match; inv_bind; simplify_eq;
    eexists _, _; refine (conj _ eq_refl);
    first [apply wakes_refl | apply wakes_signal | apply wakes_broadcast].
Qed.

End Threads.
