(* ===== verification/Correctness.v ===== *)
(** * Correctness of the concurrent program, and what its runs expose

    The theorems of this file are about every state [Threads.reachable]
    from [main]'s initial state under any interleaving of the threads:
    they follow from [Threads.step_Inv] (every step preserves
    [Threads.Inv]) by induction on the run.  They are stated for every
    choice of the [#define]s of [main.c] with at least one cook and a
    non-negative capacity.  The last part replays concrete schedules of
    the real program ([Threads.main_params]) with [vm_compute]: the
    use-after-free of [main.c], line 44, and the hang that a failed
    [malloc] causes. *)

From S2P Require Import Prelude Heap Restaurant Threads.
Import Heap Restaurant Threads.

Module Correctness.

(** Every configuration a schedule reaches is reachable. *)
Lemma run_reachable P c sched c' :
  run P c sched = Some c' → rtc (cstep P) c c'.
Proof.
  revert c. induction sched as [|[t ch] sched IH]; intros c Hrun; simpl in Hrun.
  - injection Hrun as <-. apply rtc_refl.
  - destruct c as [w|]; [| discriminate]. inv_bind.
    eapply rtc_l; [econstructor; eauto | apply IH; done].
Qed.

(** ** Properties of every reachable state *)

Section reachable.
Context (P : Params).
Hypothesis Hsize : (0 ≤ BENSCHILLIBOWL_SIZE P)%Z.
Hypothesis Hcooks : (1 ≤ NUM_COOKS P)%nat.

Lemma reachable_ok c :
  reachable P c →
  match c with
  | Running w => Inv P w
  | Faulted t p e => e = BadPointer ∧ ∃ cu i l n, t = Cust cu ∧ p = CustPrint i l n
  end.
Proof.
  unfold reachable. revert c. refine (rtc_ind_r _ _ _ _); [apply Inv_init; done |].
  intros c1 c2 _ Hstep IH.
  destruct c1 as [w0|]; [| inversion Hstep].
  - inversion Hstep as [? t ch ? Hs]; subst.
    pose proof (step_Inv P w0 t ch c2 Hcooks IH Hs) as H. destruct c2 as [w'|t' p e]; [done |].
    destruct H as (-> & -> & i & l & n & ->). split; [done |].
    unfold step in Hs. destruct t as [cu| |]; [eauto 6 | ..].
    + destruct (pcs w0 (Cook _)), ch; try discriminate; unfold acquire in *; repeat case_match; simplify_eq.
    + destruct (pcs w0 MainT), ch; try discriminate; unfold acquire in *; repeat case_match; simplify_eq.
Qed.

(** When [main] has returned, every cook has returned. *)
Lemma cooks_done_of_main w :
  Inv P w → pcs w MainT = Done → ∀ k, k ∈ cook_ids P → pcs w (Cook k) = Done.
Proof.
  intros Hinv Hm k Hk. destruct (inv_roles P w Hinv) as (_ & _ & Hok & _ & Hmain).
  rewrite Hm in Hmain. specialize (Hmain (Cook k)). specialize (Hok k Hk).
  assert (Hw : Cook k ∈ worker_tids P).
  { unfold worker_tids. apply elem_of_app. right. apply list_elem_of_fmap. eauto. }
  specialize (Hmain Hw). destruct (pcs w (Cook k)); done.
Qed.

Lemma first_cook : 1 ∈ cook_ids P.
Proof. unfold cook_ids. apply elem_of_seq. lia. Qed.

(** A customer that aborted stays aborted. *)
Lemma aborted_stable t i c c' :
  rtc (cstep P) c c' → ∀ w w', c = Running w → c' = Running w' →
  pcs w t = Aborted i → pcs w' t = Aborted i.
Proof.
  induction 1 as [c|c1 c2 c3 H12 H23 IH]; intros w w' -> Hc' Ht; [congruence |].
  inversion H12 as [? t0 ch c2' Hs]; subst.
  destruct c2 as [w2|t' p e].
  - apply (IH w2 w'); [done | done |].
    destruct (step_wakes P w t0 ch w2 Hs) as (g & p & Hw & ->).
    assert (t ≠ t0).
    { intros ->. unfold step in Hs. destruct t0; rewrite Ht in Hs; destruct ch; done. }
    rewrite upd_ne by done. destruct (Hw t) as [-> | ->]; rewrite Ht; done.
  - inversion H23 as [|? ? ? Hf]. inversion Hf.
Qed.

(** C1: Every reachable world satisfies the global invariant:
    the monitor is well formed, owned cells are allocated and private, the
    mutex is held exactly by the thread inside a critical section, roles,
    conservation of orders and the drained state of finished cooks. *)
Theorem reachable_Inv w : reachable P (Running w) → Inv P w.
Proof. intros Hr. apply (reachable_ok _ Hr). Qed.

(** C2: The only way a run of the program goes wrong is a
    customer's [printf] of [order->menu_item] (main.c, line 44) reading an
    order a cook may already have freed: no [NULL] dereference in
    [GetOrder], no bad pointer in [AddOrderToBack], no double free, and no
    failed assertion in [CloseRestaurant]. *)
Theorem reachable_fault t p e :
  reachable P (Faulted t p e) →
  e = BadPointer ∧ ∃ c i l n, t = Cust c ∧ p = CustPrint i l n.
Proof. intros Hr. apply (reachable_ok _ Hr). Qed.

(** C4: At most one thread is inside a critical section
    of the monitor. *)
Theorem mutual_exclusion w t1 t2 :
  reachable P (Running w) →
  holds_lock (pcs w t1) = true → holds_lock (pcs w t2) = true → t1 = t2.
Proof.
  intros Hr H1 H2. pose proof (inv_lock P w (reachable_ok _ Hr)) as Hl.
  apply Hl in H1, H2. congruence.
Qed.

(** C5: Whatever the interleaving, the orders handed out by
    [GetOrder], in the order they were handed out, followed by the orders
    still queued, front to back, are exactly the orders queued by
    [AddOrder], in the order they were queued. *)
Theorem fifo w :
  reachable P (Running w) →
  ∃ ls, rep (mem w) ls ∧ log_out w ++ tickets (hp (mem w)) ls = log_in w.
Proof.
  intros Hr. destruct (inv_queue P w (reachable_ok _ Hr)) as (ls & Hrep & _ & Hlin & _). eauto.
Qed.

(** C11: The numbers [AddOrder] returned so far are exactly
    [1, 2, ..., n]: strictly increasing, without gaps or repeats; and
    [next_order_number - 1] is the number of orders queued so far. *)
Theorem sequence_numbers w :
  reachable P (Running w) →
  t_number <$> log_in w = seqZ 1 (Z.of_nat (length (log_in w)))
  ∧ Z.of_nat (length (log_in w)) = (next_order_number (bcb (mem w)) - 1)%Z.
Proof.
  intros Hr. destruct (inv_queue P w (reachable_ok _ Hr)) as (ls & Hrep & _ & Hlin & Hlout).
  pose proof Hrep as (Hl & Hlen & _ & Hh & Hnext & Hnums).
  assert (Hlo : Z.of_nat (length (log_out w)) = orders_handled (bcb (mem w))).
  { apply (f_equal length) in Hlout. rewrite length_fmap, length_seqZ in Hlout. lia. }
  assert (Hli : Z.of_nat (length (log_in w)) =
                (orders_handled (bcb (mem w)) + current_size (bcb (mem w)))%Z).
  { rewrite <- Hlin, length_app, (tickets_length _ _ _ Hl). lia. }
  split; [| lia].
  rewrite Hli, <- Hlin, fmap_app, Hlout, Hnums, seqZ_app by lia. do 2 f_equal. lia.
Qed.

(** C12: The queue never holds more than
    [BENSCHILLIBOWL_SIZE] orders, and [current_size] is the length of the
    list. *)
Theorem capacity w :
  reachable P (Running w) →
  ∃ ls, rep (mem w) ls ∧ (0 ≤ current_size (bcb (mem w)) ≤ BENSCHILLIBOWL_SIZE P)%Z
        ∧ Z.of_nat (length ls) = current_size (bcb (mem w)).
Proof.
  intros Hr. pose proof (reachable_ok _ Hr) as Hinv.
  destruct (inv_queue P w Hinv) as (ls & Hrep & _). destruct (inv_consts P w Hinv) as [Hmax _].
  exists ls. pose proof Hrep as (_ & Hlen & Hcap & _). split_and!; [done | lia | lia | done].
Qed.

(** C6: When [main] returns, [CloseRestaurant]'s assertions
    having passed, every order placed was handed to a cook exactly once,
    in the order it was placed; the numbers are [1 .. EXPECTED_NUM_ORDERS];
    the queue is empty and every customer and every cook has returned
    normally (none aborted). *)
Theorem main_done w :
  reachable P (Running w) → pcs w MainT = Done →
  log_out w = log_in w
  ∧ t_number <$> log_out w = seqZ 1 (EXPECTED_NUM_ORDERS P)
  ∧ current_size (bcb (mem w)) = 0%Z
  ∧ ∀ t, t ∈ worker_tids P → pcs w t = Done.
Proof.
  intros Hr Hm. pose proof (reachable_ok _ Hr) as Hinv. simpl in Hinv.
  pose proof (cooks_done_of_main w Hinv Hm) as Hcooks_done.
  destruct Hinv as [(ls & Hrep & _ & Hlin & Hlout) [_ Hexp] _ Hroles Hcount Hdr].
  destruct (Hdr 1 first_cook (Hcooks_done 1 first_cook)) as [Hz Hh].
  destruct Hrep as (_ & Hlen & _).
  destruct ls; [| simpl in Hlen; lia].
  destruct Hroles as (Hc & _ & _ & _ & Hmain). rewrite Hm in Hmain.
  split_and!.
  - rewrite <- Hlin. symmetry. apply app_nil_r.
  - rewrite Hlout, Hh. done.
  - done.
  - intros t Ht. pose proof (Hmain t Ht) as Hterm. unfold worker_tids in Ht.
    apply elem_of_app in Ht as [Ht|Ht]; apply list_elem_of_fmap in Ht as (x & -> & Hx).
    + pose proof (cust_left_le P (pcs w) x Hx). specialize (Hc x Hx).
      destruct (pcs w (Cust x)); simpl in *; try done; lia.
    + apply Hcooks_done. done.
Qed.

(** C9: Once a customer has taken the
    [pthread_exit] path of main.c, lines 31-33, its remaining orders are
    never placed: [orders_handled] stays below [EXPECTED_NUM_ORDERS], so
    no cook's [GetOrder] ever returns [NULL] and [main], joining the cooks,
    never returns, whatever happens next. *)
Theorem abort_never_closes w cu i w' :
  reachable P (Running w) → pcs w (Cust cu) = Aborted i →
  rtc (cstep P) (Running w) (Running w') →
  (orders_handled (bcb (mem w')) < EXPECTED_NUM_ORDERS P)%Z
  ∧ (∀ k, k ∈ cook_ids P → pcs w' (Cook k) ≠ Done)
  ∧ pcs w' MainT ≠ Done.
Proof.
  intros Hr Ha Hrtc.
  assert (Hr' : reachable P (Running w')) by (eapply rtc_trans; done).
  pose proof (aborted_stable _ _ _ _ Hrtc w w' eq_refl eq_refl Ha) as Ha'.
  pose proof (reachable_ok _ Hr') as Hinv. simpl in Hinv.
  assert (Hlt : (orders_handled (bcb (mem w')) < EXPECTED_NUM_ORDERS P)%Z).
  { destruct (roles_cust P (pcs w') cu (inv_roles P w' Hinv)) as [Hin Hok]; [rewrite Ha'; done |].
    rewrite Ha' in Hok. pose proof (cust_left_le P (pcs w') cu Hin) as Hle. rewrite Ha' in Hle.
    simpl in Hok, Hle. destruct (inv_queue P w' Hinv) as (ls & (_ & Hlen & _) & _).
    pose proof (inv_count P w' Hinv). lia. }
  assert (Hk : ∀ k, k ∈ cook_ids P → pcs w' (Cook k) ≠ Done).
  { intros k Hk Hd. destruct (inv_drained P w' Hinv k Hk Hd). lia. }
  split_and!; [done | done |].
  intros Hm. apply (Hk 1 first_cook), (cooks_done_of_main w' Hinv Hm), first_cook.
Qed.

(** C13: With the constants of [main.c] (or any with a capacity and
    an expected number of orders that fit in an [int]), no [int] field of
    the monitor overflows in any run: in particular [next_order_number++]
    in [AddOrder] and [orders_handled++] in [GetOrder] stay below
    [INT_MAX]. *)
Theorem int_fields w :
  reachable P (Running w) →
  (BENSCHILLIBOWL_SIZE P ≤ INT_MAX)%Z → (EXPECTED_NUM_ORDERS P < INT_MAX)%Z →
  Int (current_size (bcb (mem w))) ∧ Int (max_size (bcb (mem w)))
  ∧ Int (next_order_number (bcb (mem w))) ∧ Int (orders_handled (bcb (mem w)))
  ∧ Int (expected_num_orders (bcb (mem w))).
Proof.
  intros Hr Hs He. pose proof (reachable_ok _ Hr) as Hinv. simpl in Hinv.
  destruct Hinv as [(ls & (_ & Hlen & Hcap & Hh & Hnext & _) & _) [Hmax Hexp] _ _ Hcount _].
  unfold INT_MIN, INT_MAX in *. unfold EXPECTED_NUM_ORDERS in *.
  split_and!; apply int_ok_intro; unfold INT_MIN, INT_MAX; lia.
Qed.

End reachable.

(** ** A capacity of 0 or less *)

Section no_capacity.
Context (P : Params).
Hypothesis Hcap : (BENSCHILLIBOWL_SIZE P ≤ 0)%Z.
Hypothesis Hexp : (0 < EXPECTED_NUM_ORDERS P)%Z.

(** A step from a world where the monitor is still as [OpenRestaurant]
    left it: every [AddOrder] and [GetOrder] waits and [CloseRestaurant]
    fails, so the monitor stays as it was, nothing is queued, and [main]
    does not return. *)
Lemma unopened_step w t ch c' :
  bcb (mem w) = OpenRestaurant (BENSCHILLIBOWL_SIZE P) (EXPECTED_NUM_ORDERS P) →
  log_in w = [] → pcs w MainT ≠ Done → step P w t ch = Some c' →
  match c' with
  | Running w' =>
      bcb (mem w') = OpenRestaurant (BENSCHILLIBOWL_SIZE P) (EXPECTED_NUM_ORDERS P)
      ∧ log_in w' = [] ∧ pcs w' MainT ≠ Done
  | Faulted _ _ _ => True
  end.
Proof.
  intros Hb Hl Hm Hs.
  assert (HA : ∀ x, AddOrder (mem w) x = Wait) by (intros; eapply AddOrder_opened_wait; eauto).
  assert (HG : GetOrder (mem w) = Wait) by (eapply GetOrder_opened_wait; eauto).
  assert (HC : CloseRestaurant (mem w) = Crash AssertionFailed) by (eapply CloseRestaurant_opened; eauto).
  unfold step in Hs. cbv zeta in Hs.
  destruct t as [c|k|];
    [destruct (pcs w (Cust c)) eqn:Hpc | destruct (pcs w (Cook k)) eqn:Hpc | destruct (pcs w MainT) eqn:Hpc];
    destruct ch; try discriminate;
    unfold acquire, with_pc in *; rewrite ?HA, ?HG, ?HC in Hs; repeat case_match; inv_bind;
    simplify_eq; cbn [mem bcb log_in pcs]; try done; split_and!; try done;
    first [rewrite upd_ne by done; done | rewrite upd_eq; done].
Qed.

(** C19: [OpenRestaurant] does not check its capacity (the spec calls a
    non-positive capacity a contract violation that must fail loudly).
    With [BENSCHILLIBOWL_SIZE <= 0], negative or zero, and orders
    expected, the program neither fails nor makes progress: in every
    reachable state the monitor is exactly as [OpenRestaurant] built it, no
    order has ever been queued, and [main] has not returned. *)
Theorem nonpositive_capacity_blocks w :
  reachable P (Running w) →
  bcb (mem w) = OpenRestaurant (BENSCHILLIBOWL_SIZE P) (EXPECTED_NUM_ORDERS P)
  ∧ log_in w = [] ∧ pcs w MainT ≠ Done.
Proof.
  intros Hr.
  assert (H : ∀ c, reachable P c →
    match c with
    | Running w' =>
        bcb (mem w') = OpenRestaurant (BENSCHILLIBOWL_SIZE P) (EXPECTED_NUM_ORDERS P)
        ∧ log_in w' = [] ∧ pcs w' MainT ≠ Done
    | Faulted _ _ _ => True
    end).
  { unfold reachable. refine (rtc_ind_r _ _ _ _); [done |].
    intros c1 c2 _ Hstep IH. inversion Hstep as [w1 t ch ? Hs]; subst.
    destruct IH as (Hb & Hl & Hm). exact (unopened_step w1 t ch c2 Hb Hl Hm Hs). }
  exact (H _ Hr).
Qed.

End no_capacity.

(** ** Concrete runs *)

(** The world a schedule leads to from [main]'s initial state. *)
Definition after (P : Params) (sched : list (tid * choice)) : World :=
  match run P (Running (init P)) sched with
  | Some (Running w) => w
  | _ => init P
  end.

Definition runs (P : Params) (sched : list (tid * choice)) : bool :=
  match run P (Running (init P)) sched with
  | Some (Running _) => true
  | _ => false
  end.

Lemma runs_reachable P sched : runs P sched = true → reachable P (Running (after P sched)).
Proof.
  unfold runs, after, reachable. intros H.
  destruct (run P (Running (init P)) sched) as [[w|]|] eqn:E; try discriminate.
  apply (run_reachable _ _ _ _ E).
Qed.

(** One customer placing one order: [malloc], [rand()], [AddOrder] (lock,
    enqueue, signal nobody). *)
Definition place (c : nat) (l : loc) (r : Z) : list (tid * choice) :=
  [(Cust c, CMalloc (Some l)); (Cust c, CRand r); (Cust c, CNone); (Cust c, CWake None)].

(** One cook taking one order and freeing it. *)
Definition serve (k : nat) : list (tid * choice) :=
  [(Cook k, CNone); (Cook k, CWake None); (Cook k, CNone)].

(** A small restaurant (capacity 2, one customer with three orders, one
    cook): the customer fills the queue and waits on [can_add_orders]; the
    cook's [GetOrder] signals it; then everything is served, the cook's last
    [GetOrder] returns [NULL], and [main] joins both threads and closes. *)
Definition small : Params := mkParams 2 1 1 3.

Definition small_run : list (tid * choice) :=
  place 1 1 0 ++ [(Cust 1, CNone)] ++ place 1 2 1 ++ [(Cust 1, CNone)] ++ place 1 3 2
  ++ [(Cook 1, CNone); (Cook 1, CWake (Some (Cust 1))); (Cook 1, CNone)]
  ++ [(Cust 1, CNone); (Cust 1, CWake None); (Cust 1, CNone); (Cust 1, CNone)]
  ++ serve 1 ++ serve 1 ++ [(Cook 1, CNone); (Cook 1, CWake None)]
  ++ [(MainT, CNone); (MainT, CNone); (MainT, CNone)].

(** The real program ([main_params]): customer 1's order is served and
    freed by cook 1 before customer 1 reaches its [printf]. *)
Definition uaf_run : list (tid * choice) :=
  place 1 0 0 ++ serve 1 ++ [(Cust 1, CNone)].

(** The real program: customer 1's first [malloc] fails. *)
Definition abort_run : list (tid * choice) := [(Cust 1, CMalloc None)].

(** One customer with one order, one cook: the customer's [malloc] fails,
    the cook waits for an order, [main] joins the customer and waits for
    the cook. *)
Definition tiny : Params := mkParams 1 1 1 1.

Definition deadlock_run : list (tid * choice) :=
  [(Cust 1, CMalloc None); (Cook 1, CNone); (Cook 1, CWake None); (MainT, CNone)].

(** ** What the concrete runs show *)

(** C3: The one fault the invariant allows happens in the real
    program: with the constants of [main.c], customer 1 places an order,
    cook 1 takes it and frees it, and customer 1's
    [printf(..., order->menu_item, ...)] (main.c, line 44) then reads the
    freed cell. *)
Theorem use_after_free :
  reachable main_params (Faulted (Cust 1) (CustPrint 0 0 1) BadPointer).
Proof. apply (run_reachable _ _ uaf_run). vm_compute. reflexivity. Qed.

(** C10: A failed [malloc] deadlocks the program: in the run
    [deadlock_run] the customer has exited, the cook waits on
    [can_get_orders] for an order that will never come, and [main] waits
    in [pthread_join] for the cook; no thread can take a step other than
    a spurious wake-up, and [main] has not returned. *)
Theorem malloc_failure_deadlock :
  reachable tiny (Running (after tiny deadlock_run))
  ∧ pcs (after tiny deadlock_run) MainT ≠ Done
  ∧ ∀ c', ¬ fstep tiny (Running (after tiny deadlock_run)) c'.
Proof.
  split_and!; [apply runs_reachable; vm_compute; reflexivity | vm_compute; done |].
  intros c' Hf. inversion Hf as [w t ch c'' Hsp Hs]; subst.
  destruct t as [[|[|c]]|[|[|k]]|]; destruct ch; vm_compute in Hsp, Hs; congruence.
Qed.

(** ** Witnesses *)

Lemma reachable_Inv_witness :
  reachable small (Running (after small small_run)) ∧ Inv small (after small small_run).
Proof.
  assert (Hr : reachable small (Running (after small small_run)))
    by (apply runs_reachable; vm_compute; reflexivity).
  split; [exact Hr |]. apply (reachable_Inv small); [vm_compute; done | vm_compute; lia | exact Hr].
Defined.

Lemma reachable_fault_witness :
  reachable main_params (Faulted (Cust 1) (CustPrint 0 0 1) BadPointer)
  ∧ BadPointer = BadPointer
  ∧ ∃ c i l n, Cust 1 = Cust c ∧ CustPrint 0 0 1 = CustPrint i l n.
Proof.
  assert (Hr : reachable main_params (Faulted (Cust 1) (CustPrint 0 0 1) BadPointer))
    by (apply (run_reachable _ _ uaf_run); vm_compute; reflexivity).
  split; [exact Hr |]. apply (reachable_fault main_params); [vm_compute; done | vm_compute; lia | exact Hr].
Defined.

(** Customer 1 inside [AddOrder]'s critical section. *)
Definition locked_run : list (tid * choice) := take 3 (place 1 1 0).

Lemma mutual_exclusion_witness :
  reachable small (Running (after small locked_run))
  ∧ holds_lock (pcs (after small locked_run) (Cust 1)) = true
  ∧ Cust 1 = Cust 1.
Proof.
  assert (Hr : reachable small (Running (after small locked_run)))
    by (apply runs_reachable; vm_compute; reflexivity).
  assert (Hl : holds_lock (pcs (after small locked_run) (Cust 1)) = true) by (vm_compute; reflexivity).
  split_and!; [exact Hr | exact Hl |].
  apply (mutual_exclusion small ltac:(vm_compute; done) ltac:(vm_compute; lia) _ _ _ Hr Hl Hl).
Defined.

(** Two orders queued, the queue full, none served. *)
Definition full_run : list (tid * choice) := place 1 1 0 ++ [(Cust 1, CNone)] ++ place 1 2 1.

Lemma fifo_witness :
  reachable small (Running (after small full_run))
  ∧ ∃ ls, rep (mem (after small full_run)) ls
          ∧ log_out (after small full_run) ++ tickets (hp (mem (after small full_run))) ls
            = log_in (after small full_run).
Proof.
  assert (Hr : reachable small (Running (after small full_run)))
    by (apply runs_reachable; vm_compute; reflexivity).
  split; [exact Hr |]. apply (fifo small); [vm_compute; done | vm_compute; lia | exact Hr].
Defined.

Lemma sequence_numbers_witness :
  reachable small (Running (after small small_run))
  ∧ t_number <$> log_in (after small small_run)
    = seqZ 1 (Z.of_nat (length (log_in (after small small_run))))
  ∧ Z.of_nat (length (log_in (after small small_run)))
    = (next_order_number (bcb (mem (after small small_run))) - 1)%Z.
Proof.
  assert (Hr : reachable small (Running (after small small_run)))
    by (apply runs_reachable; vm_compute; reflexivity).
  split; [exact Hr |]. apply (sequence_numbers small); [vm_compute; done | vm_compute; lia | exact Hr].
Defined.

Lemma capacity_witness :
  reachable small (Running (after small full_run))
  ∧ ∃ ls, rep (mem (after small full_run)) ls
          ∧ (0 ≤ current_size (bcb (mem (after small full_run))) ≤ BENSCHILLIBOWL_SIZE small)%Z
          ∧ Z.of_nat (length ls) = current_size (bcb (mem (after small full_run))).
Proof.
  assert (Hr : reachable small (Running (after small full_run)))
    by (apply runs_reachable; vm_compute; reflexivity).
  split; [exact Hr |]. apply (capacity small); [vm_compute; done | vm_compute; lia | exact Hr].
Defined.

Lemma main_done_witness :
  reachable small (Running (after small small_run))
  ∧ pcs (after small small_run) MainT = Done
  ∧ log_out (after small small_run) = log_in (after small small_run)
  ∧ t_number <$> log_out (after small small_run) = seqZ 1 (EXPECTED_NUM_ORDERS small)
  ∧ current_size (bcb (mem (after small small_run))) = 0%Z
  ∧ ∀ t, t ∈ worker_tids small → pcs (after small small_run) t = Done.
Proof.
  assert (Hr : reachable small (Running (after small small_run)))
    by (apply runs_reachable; vm_compute; reflexivity).
  assert (Hm : pcs (after small small_run) MainT = Done) by (vm_compute; reflexivity).
  split_and!; [exact Hr | exact Hm |
    apply (main_done small); [vm_compute; done | vm_compute; lia | exact Hr | exact Hm]..].
Defined.

Lemma abort_never_closes_witness :
  reachable main_params (Running (after main_params abort_run))
  ∧ pcs (after main_params abort_run) (Cust 1) = Aborted 0
  ∧ (orders_handled (bcb (mem (after main_params abort_run))) < EXPECTED_NUM_ORDERS main_params)%Z
  ∧ pcs (after main_params abort_run) MainT ≠ Done.
Proof.
  assert (Hr : reachable main_params (Running (after main_params abort_run)))
    by (apply runs_reachable; vm_compute; reflexivity).
  assert (Ha : pcs (after main_params abort_run) (Cust 1) = Aborted 0) by (vm_compute; reflexivity).
  destruct (abort_never_closes main_params ltac:(vm_compute; done) ltac:(vm_compute; lia)
              _ 1 0 _ Hr Ha (rtc_refl _ _)) as (Hlt & _ & Hm).
  split_and!; done.
Defined.

Lemma int_fields_witness :
  reachable main_params (Running (after main_params (place 1 0 0)))
  ∧ Int (next_order_number (bcb (mem (after main_params (place 1 0 0)))))
  ∧ Int (orders_handled (bcb (mem (after main_params (place 1 0 0))))).
Proof.
  assert (Hr : reachable main_params (Running (after main_params (place 1 0 0))))
    by (apply runs_reachable; vm_compute; reflexivity).
  destruct (int_fields main_params ltac:(vm_compute; done) ltac:(vm_compute; lia) _ Hr
              ltac:(vm_compute; done) ltac:(vm_compute; done)) as (_ & _ & Hn & Hh & _).
  split_and!; done.
Defined.

(** A negative capacity: the first customer's [AddOrder] waits. *)
Definition no_capacity : Params := mkParams (-1) 1 1 1.

Lemma nonpositive_capacity_blocks_witness :
  reachable no_capacity (Running (after no_capacity (place 1 0 0)))
  ∧ pcs (after no_capacity (place 1 0 0)) (Cust 1) = CustWait 0 0
  ∧ bcb (mem (after no_capacity (place 1 0 0)))
    = OpenRestaurant (BENSCHILLIBOWL_SIZE no_capacity) (EXPECTED_NUM_ORDERS no_capacity)
  ∧ log_in (after no_capacity (place 1 0 0)) = []
  ∧ pcs (after no_capacity (place 1 0 0)) MainT ≠ Done.
Proof.
  assert (Hr : reachable no_capacity (Running (after no_capacity (place 1 0 0))))
    by (apply runs_reachable; vm_compute; reflexivity).
  refine (conj Hr (conj _ _)); [vm_compute; reflexivity |].
  exact (nonpositive_capacity_blocks no_capacity ltac:(vm_compute; done) ltac:(vm_compute; done) _ Hr).
Defined.

End Correctness.
