(* ===== verification/ShmProcesses.v ===== *)
(** * [shm_processes.c]: Dear Old Dad and Poor Student

    [main] (lines 42-101) creates one shared [int], the bank account
    ([ShmPTR[0] = 0]), and a System V semaphore set to 1, then forks: the
    child runs [ChildProcess] (the student), the parent [ParentProcess]
    (Dad), and both loop forever.  The state ([Shm]) is the shared account,
    the semaphore's value, and each process's program counter and
    [localBalance].  A step runs one statement group of one process: the
    [rand()] test at the top of the loop, [sem_wait_op] (enabled only when
    the semaphore is positive: [semop] blocks otherwise), the copy of the
    account into [localBalance], the update and write back, and
    [sem_signal_op].  The environment chooses the interleaving and the
    value of each [rand()] in [0, RAND_MAX].  [sleep] and [printf] do not
    touch the state; the [rand()] consumed by [sleep(rand() % 6)] is not
    modelled, which loses nothing since every later [rand()] is an
    arbitrary choice anyway.

    Theorems: the semaphore is a mutex (its value is 0 exactly when one
    process is between [sem_wait_op] and [sem_signal_op], and never both
    are); the account stays in [0, 199], and every [int] computed stays in
    range; and Dad's [localBalance], refreshed only inside the deposit
    branch, goes stale: once it reaches 100 Dad never deposits again,
    whatever the student withdraws. *)

From S2P Require Import Prelude.

Module ShmProcesses.

(** ** State *)

Inductive proc := Dad | Student.

#[export] Instance proc_eq_dec : EqDecision proc.
Proof. solve_decision. Defined.

(** [ParentProcess], lines 104-152. *)
Inductive dad_pc :=
  | DadLoop      (** top of [while (1)], line 111 *)
  | DadWait      (** [sem_wait_op(sem_id)], line 122 *)
  | DadRead      (** [localBalance = SharedMem[0]], line 125 *)
  | DadDeposit   (** [amount = rand() % 101] and the deposit, lines 127-139 *)
  | DadSignal.   (** [sem_signal_op(sem_id)], line 141 *)

(** [ChildProcess], lines 155-198. *)
Inductive student_pc :=
  | StuLoop      (** top of [while (1)], line 162 *)
  | StuWait      (** [sem_wait_op(sem_id)], line 171 *)
  | StuRead      (** [localBalance = SharedMem[0]], line 174 *)
  | StuWithdraw  (** [need = rand() % 51] and the withdrawal, lines 176-189 *)
  | StuSignal.   (** [sem_signal_op(sem_id)], line 191 *)

Record Shm := mkShm {
  account : Z;          (** [ShmPTR[0]], the BankAccount *)
  sem : Z;              (** the semaphore's value *)
  dad : dad_pc;
  dad_local : Z;        (** Dad's [localBalance] *)
  student : student_pc;
  student_local : Z;    (** the student's [localBalance] *)
}.

Definition set_dad (s : Shm) (p : dad_pc) (l : Z) : Shm :=
  mkShm (account s) (sem s) p l (student s) (student_local s).
Definition set_student (s : Shm) (p : student_pc) (l : Z) : Shm :=
  mkShm (account s) (sem s) (dad s) (dad_local s) p l.
Definition set_account (s : Shm) (a : Z) : Shm :=
  mkShm a (sem s) (dad s) (dad_local s) (student s) (student_local s).
Definition set_sem (s : Shm) (v : Z) : Shm :=
  mkShm (account s) v (dad s) (dad_local s) (student s) (student_local s).

(** The input of a step: nothing, or the value [rand()] returns. *)
Inductive choice := CNone | CRand (r : Z).

(** ** The semaphore operations, lines 21-37 *)

(** [semop] with [sem_op = -1] blocks while the value is 0. *)
Definition sem_wait_op (v : Z) : option Z := if (0 <? v)%Z then Some (v - 1)%Z else None.

Definition sem_signal_op (v : Z) : Z := (v + 1)%Z.

(** ** The two processes *)

Definition ParentProcess (s : Shm) (ch : choice) : option Shm :=
  match dad s, ch with
  | DadLoop, CRand r =>
      if rand_ok r then
        if (Z.rem r 2 =? 0)%Z then
          if (dad_local s <? 100)%Z then Some (set_dad s DadWait (dad_local s))
          else Some s      (** "Thinks Student has enough Cash" *)
        else Some s        (** "Last Checking Balance" *)
      else None
  | DadWait, CNone =>
      v ← sem_wait_op (sem s);
      Some (set_dad (set_sem s v) DadRead (dad_local s))
  | DadRead, CNone => Some (set_dad s DadDeposit (account s))
  | DadDeposit, CRand r =>
      if rand_ok r then
        let amount := Z.rem r 101 in
        if (Z.rem amount 2 =? 0)%Z then
          let l := (dad_local s + amount)%Z in
          Some (set_account (set_dad s DadSignal l) l)
        else Some (set_dad s DadSignal (dad_local s))
      else None
  | DadSignal, CNone => Some (set_dad (set_sem s (sem_signal_op (sem s))) DadLoop (dad_local s))
  | _, _ => None
  end.

Definition ChildProcess (s : Shm) (ch : choice) : option Shm :=
  match student s, ch with
  | StuLoop, CRand r =>
      if rand_ok r then
        if (Z.rem r 2 =? 0)%Z then Some (set_student s StuWait (student_local s))
        else Some s        (** "Last Checking Balance" *)
      else None
  | StuWait, CNone =>
      v ← sem_wait_op (sem s);
      Some (set_student (set_sem s v) StuRead (student_local s))
  | StuRead, CNone => Some (set_student s StuWithdraw (account s))
  | StuWithdraw, CRand r =>
      if rand_ok r then
        let need := Z.rem r 51 in
        if (need <=? student_local s)%Z then
          let l := (student_local s - need)%Z in
          Some (set_account (set_student s StuSignal l) l)
        else Some (set_student s StuSignal (student_local s))
      else None
  | StuSignal, CNone =>
      Some (set_student (set_sem s (sem_signal_op (sem s))) StuLoop (student_local s))
  | _, _ => None
  end.

Definition shm_step (s : Shm) (p : proc) (ch : choice) : option Shm :=
  match p with
  | Dad => ParentProcess s ch
  | Student => ChildProcess s ch
  end.

Inductive sstep : Shm → Shm → Prop :=
  | sstep_intro s p ch s' : shm_step s p ch = Some s' → sstep s s'.

(** [main] up to the [fork] (lines 49-96) and the declarations of both
    [localBalance]s (lines 106 and 157). *)
Definition shm_init : Shm := mkShm 0 1 DadLoop 0 StuLoop 0.

Definition shm_reachable (s : Shm) : Prop := rtc sstep shm_init s.

Fixpoint shm_run (s : Shm) (sched : list (proc * choice)) : option Shm :=
  match sched with
  | [] => Some s
  | (p, ch) :: rest => s' ← shm_step s p ch; shm_run s' rest
  end.

(** ** The invariant *)

(** Between [sem_wait_op] and [sem_signal_op]. *)
Definition dad_in (p : dad_pc) : bool :=
  match p with DadRead | DadDeposit | DadSignal => true | _ => false end.
Definition student_in (p : student_pc) : bool :=
  match p with StuRead | StuWithdraw | StuSignal => true | _ => false end.

Record ShmInv (s : Shm) : Prop := {
  inv_sem : sem s = (if dad_in (dad s) || student_in (student s) then 0 else 1)%Z;
  inv_excl : dad_in (dad s) && student_in (student s) = false;
  inv_account : (0 ≤ account s ≤ dad_local s ≤ 199)%Z;
  inv_dad : match dad s with
            | DadWait | DadRead => (dad_local s < 100)%Z
            | DadDeposit => dad_local s = account s ∧ (dad_local s < 100)%Z
            | DadSignal => dad_local s = account s
            | DadLoop => True
            end;
  inv_student : (0 ≤ student_local s ≤ 199)%Z
                ∧ match student s with
                  | StuWithdraw | StuSignal => student_local s = account s
                  | _ => True
                  end;
}.

(** ** Preservation *)

Lemma rem_range (r m : Z) : (0 ≤ r)%Z → (0 < m)%Z → (0 ≤ Z.rem r m < m)%Z.
Proof. intros. apply Z.rem_bound_pos; lia. Qed.

(** Turn the boolean tests of a step into arithmetic facts. *)
Ltac shm_tests :=
  repeat match goal with
  | H : rand_ok _ = true |- _ =>
      unfold rand_ok in H; apply andb_true_iff in H as [?%Z.leb_le ?%Z.leb_le]
  | H : (_ <? _)%Z = true |- _ => apply Z.ltb_lt in H
  | H : (_ <? _)%Z = false |- _ => apply Z.ltb_ge in H
  | H : (_ <=? _)%Z = true |- _ => apply Z.leb_le in H
  | H : (_ <=? _)%Z = false |- _ => apply Z.leb_gt in H
  | H : (_ =? _)%Z = true |- _ => apply Z.eqb_eq in H
  | H : (_ =? _)%Z = false |- _ => apply Z.eqb_neq in H
  end.

Lemma shm_step_Inv s p ch s' : ShmInv s → shm_step s p ch = Some s' → ShmInv s'.
Proof.
  intros [Hsem Hex Hacc Hd [Hsl Hs]] Hstep.
  destruct s as [a v d dl st sl]; simpl in *.
  destruct p, d, st, ch as [|r]; unfold shm_step, ParentProcess, ChildProcess in Hstep; simpl in Hstep; try discriminate;
    unfold sem_wait_op, sem_signal_op in Hstep; repeat case_match; simpl in Hstep; simplify_eq; shm_tests;
    try (assert (0 ≤ Z.rem r 101 < 101)%Z by (apply rem_range; lia));
    try (assert (0 ≤ Z.rem r 51 < 51)%Z by (apply rem_range; lia));
    split; simpl in *; try done; try lia.
Qed.

Lemma shm_Inv_init : ShmInv shm_init.
Proof. split; simpl; try done; lia. Qed.

Lemma shm_Inv_reachable s : shm_reachable s → ShmInv s.
Proof.
  unfold shm_reachable. revert s. refine (rtc_ind_r _ _ shm_Inv_init _).
  intros s1 s2 _ [? p ch ? Hs] IH. eapply shm_step_Inv; eauto.
Qed.

Lemma shm_run_reachable s sched s' : shm_run s sched = Some s' → rtc sstep s s'.
Proof.
  revert s. induction sched as [|[p ch] sched IH]; intros s Hrun; simpl in Hrun.
  - injection Hrun as <-. apply rtc_refl.
  - inv_bind. eapply rtc_l; [econstructor; eauto | apply IH; done].
Qed.

(** A step taken while Dad sits at the top of his loop with a
    [localBalance] of at least 100: Dad stays there with the same
    [localBalance], and the account does not grow. *)
Lemma stale_step s p ch s' :
  ShmInv s → dad s = DadLoop → (100 ≤ dad_local s)%Z → shm_step s p ch = Some s' →
  dad s' = DadLoop ∧ dad_local s' = dad_local s ∧ (account s' ≤ account s)%Z.
Proof.
  intros [_ _ Hacc _ [_ Hst]] Hd Hl Hstep.
  destruct s as [a v d dl st sl]; simpl in *; subst d.
  destruct p, st, ch as [|r]; unfold shm_step, ParentProcess, ChildProcess in Hstep; simpl in Hstep;
    try discriminate; unfold sem_wait_op in Hstep; repeat case_match; simpl in Hstep;
    simplify_eq; shm_tests; simpl in *; split_and!; try done;
    try (assert (0 ≤ Z.rem r 51 < 51)%Z by (apply rem_range; lia)); lia.
Qed.

(** ** Properties of every reachable state *)

(** C20: The semaphore is a mutex: its value is 0 or 1, it is 0 exactly when
    one process is between its [sem_wait_op] and its [sem_signal_op], and
    the two processes are never both there. *)
Theorem semaphore_mutex s :
  shm_reachable s →
  (sem s = 0 ∨ sem s = 1)%Z
  ∧ dad_in (dad s) && student_in (student s) = false
  ∧ (sem s = 0%Z ↔ dad_in (dad s) || student_in (student s) = true).
Proof.
  intros Hr. destruct (shm_Inv_reachable s Hr) as [Hsem Hex _ _ _]. rewrite Hsem.
  destruct (dad_in (dad s) || student_in (student s)); split_and!; try done; lia.
Qed.

(** C21: The account never goes negative (a withdrawal of [need] happens only
    when [need <= localBalance], and [localBalance] is the account just
    read under the semaphore) and never exceeds 199 (Dad deposits at most
    100, and only when the account is below 100); both [localBalance]s stay
    in [0, 199], so no [int] overflows. *)
Theorem account_bounds s :
  shm_reachable s →
  (0 ≤ account s ≤ 199)%Z ∧ (0 ≤ dad_local s ≤ 199)%Z ∧ (0 ≤ student_local s ≤ 199)%Z.
Proof.
  intros Hr. destruct (shm_Inv_reachable s Hr) as [_ _ Hacc _ [Hsl _]]. lia.
Qed.

(** C22: Dad's [localBalance] is refreshed only inside the deposit branch
    (line 125), but tested before it (line 120): once it is at least 100,
    Dad never takes the semaphore again, his [localBalance] never changes,
    and the account can only shrink, however far the student's
    withdrawals take it. *)
Theorem dad_stale_balance s s' :
  shm_reachable s → dad s = DadLoop → (100 ≤ dad_local s)%Z → rtc sstep s s' →
  dad s' = DadLoop ∧ dad_local s' = dad_local s ∧ (account s' ≤ account s)%Z.
Proof.
  intros Hr Hd Hl Hrtc. revert Hr Hd Hl.
  induction Hrtc as [s|s1 s2 s3 Hst _ IH]; intros Hr Hd Hl; [split_and!; done || lia |].
  inversion Hst as [? p ch ? Hs]; subst.
  destruct (stale_step s1 p ch s2 (shm_Inv_reachable s1 Hr) Hd Hl Hs) as (Hd2 & Hl2 & Ha2).
  destruct IH as (? & ? & ?); [eapply rtc_r; [exact Hr | exact Hst] | done | lia |].
  split_and!; [done | congruence | lia].
Qed.

(** C23: Neither process can block the other for good: from every reachable
    state some process can take a step that changes the state. *)
Theorem no_deadlock s :
  shm_reachable s → ∃ p ch s', shm_step s p ch = Some s' ∧ s' ≠ s.
Proof.
  intros Hr. destruct (shm_Inv_reachable s Hr) as [Hsem _ _ _ [Hsl _]].
  destruct s as [a v d dl st sl]; simpl in *.
  destruct st.
  - exists Student, (CRand 0), (mkShm a v d dl StuWait sl). split; [done | congruence].
  - destruct d.
    + exists Student, CNone, (mkShm a 0 DadLoop dl StuRead sl). rewrite Hsem.
      split; [done | congruence].
    + exists Student, CNone, (mkShm a 0 DadWait dl StuRead sl). rewrite Hsem.
      split; [done | congruence].
    + exists Dad, CNone, (mkShm a v DadDeposit a StuWait sl). split; [done | congruence].
    + exists Dad, (CRand 1), (mkShm a v DadSignal dl StuWait sl). split; [done | congruence].
    + exists Dad, CNone, (mkShm a (v + 1) DadLoop dl StuWait sl). split; [done | congruence].
  - exists Student, CNone, (mkShm a v d dl StuWithdraw a). split; [done | congruence].
  - exists Student, (CRand 51), (mkShm (sl - 0) v d dl StuSignal (sl - 0)). split; [| congruence].
    unfold shm_step, ChildProcess. simpl. change (Z.rem 51 51) with 0%Z.
    destruct (Z.leb_spec 0 sl); [done | lia].
  - exists Student, CNone, (mkShm a (v + 1) d dl StuLoop sl). split; [done | congruence].
Qed.

(** ** Concrete runs *)

(** Dad deposits 100; the student withdraws 50 twice. *)
Definition stale_run : list (proc * choice) :=
  [(Dad, CRand 0); (Dad, CNone); (Dad, CNone); (Dad, CRand 100); (Dad, CNone)]
  ++ [(Student, CRand 0); (Student, CNone); (Student, CNone); (Student, CRand 50); (Student, CNone)]
  ++ [(Student, CRand 0); (Student, CNone); (Student, CNone); (Student, CRand 50); (Student, CNone)].

Definition stale_state : Shm :=
  match shm_run shm_init stale_run with Some s => s | None => shm_init end.

Lemma stale_state_reachable : shm_reachable stale_state.
Proof. apply (shm_run_reachable shm_init stale_run). vm_compute. reflexivity. Qed.

Lemma dad_stale_balance_witness :
  shm_reachable stale_state ∧ dad stale_state = DadLoop ∧ (100 ≤ dad_local stale_state)%Z
  ∧ account stale_state = 0%Z
  ∧ (dad stale_state = DadLoop ∧ dad_local stale_state = dad_local stale_state
     ∧ (account stale_state ≤ account stale_state)%Z).
Proof.
  pose proof stale_state_reachable as Hr.
  assert (Hd : dad stale_state = DadLoop) by (vm_compute; reflexivity).
  assert (Hl : (100 ≤ dad_local stale_state)%Z) by (vm_compute; done).
  refine (conj Hr (conj Hd (conj Hl (conj _ _)))); [vm_compute; reflexivity |].
  exact (dad_stale_balance stale_state stale_state Hr Hd Hl (rtc_refl _ _)).
Defined.

Lemma semaphore_mutex_witness :
  shm_reachable stale_state
  ∧ ((sem stale_state = 0 ∨ sem stale_state = 1)%Z
     ∧ dad_in (dad stale_state) && student_in (student stale_state) = false
     ∧ (sem stale_state = 0%Z ↔ dad_in (dad stale_state) || student_in (student stale_state) = true)).
Proof.
  pose proof stale_state_reachable as Hr. split; [exact Hr |]. exact (semaphore_mutex _ Hr).
Defined.

Lemma account_bounds_witness :
  shm_reachable stale_state
  ∧ ((0 ≤ account stale_state ≤ 199)%Z ∧ (0 ≤ dad_local stale_state ≤ 199)%Z
     ∧ (0 ≤ student_local stale_state ≤ 199)%Z).
Proof.
  pose proof stale_state_reachable as Hr. split; [exact Hr |]. exact (account_bounds _ Hr).
Defined.

Lemma no_deadlock_witness :
  shm_reachable stale_state ∧ ∃ p ch s', shm_step stale_state p ch = Some s' ∧ s' ≠ stale_state.
Proof.
  pose proof stale_state_reachable as Hr. split; [exact Hr |]. exact (no_deadlock _ Hr).
Defined.

End ShmProcesses.
